(** * Switchmate: a shallow embedding of [switch.py]

    The client class [Switchmate] drives one Bluetooth Low-Energy toggle
    switch through a [bleak] client object.  Every method is a coroutine that
    mutates the fields of [self] and calls the transport; here a method is a
    function on a [World] that holds the object, the trace of transport calls
    made so far and two counters.  The transport is an arbitrary function of
    that trace, so a statement quantified over [Transport] holds for every
    behaviour of the radio link.

    What the model leaves out: the calls to [_LOGGER], which change nothing;
    other coroutines running on the same object between two [await]s (a
    method runs from its call to its return); exceptions raised by the
    constructor [BleakClient] or by the property [is_connected]. *)

From Stdlib Require Import List ZArith Bool String Ascii Lia PeanoNat.
From Stdlib.Strings Require Import Byte.
From Equations Require Import Equations.
Import ListNotations.

Set Implicit Arguments.
Open Scope Z_scope.

(** ** Values *)

(** Python [bytes] and [bytearray] values; [==] between them compares the
    contents. *)
Definition bytes := list byte.

Definition bytes_eq_dec : forall a b : bytes, {a = b} + {a <> b} :=
  list_eq_dec Byte.byte_eq_dec.

Definition bytes_eqb (a b : bytes) : bool :=
  if bytes_eq_dec a b then true else false.

(** [ON_KEY = b"\x01"], [OFF_KEY = b"\x00"] and the literal [b"Bright"]. *)
Definition ON_KEY : bytes := [x01].
Definition OFF_KEY : bytes := [x00].
Definition Bright : bytes := [x42; x72; x69; x67; x68; x74].

(** The exceptions that matter: the two classes named by the [except]
    clauses, [AttributeError] for a method call on [None], and everything
    else a transport may raise. *)
Inductive exn := BleakError | TimeoutError | AttributeError | OtherError.

(** [except (bleak.BleakError, asyncio.exceptions.TimeoutError)] *)
Definition caught (e : exn) : bool :=
  match e with
  | BleakError | TimeoutError => true
  | AttributeError | OtherError => false
  end.

(** Outcome of a call: a value or a raised exception. *)
Inductive Res (A : Type) := Ret (a : A) | Exc (e : exn).
Arguments Ret {A} a.
Arguments Exc {A} e.

(** ** The transport *)

(** One entry per transport operation, in the order they happen.  Clients
    (the [BleakClient] objects) are numbered in creation order.  Taking and
    leaving [CONNECT_LOCK] are recorded too. *)
Inductive Event :=
| EvAcquire
| EvRelease
| EvNew (c : nat) (mac : string)
| EvConnect (c : nat) (r : Res unit)
| EvDisconnect (c : nat) (r : Res unit)
| EvRead (c : nat) (h : option Z) (r : Res bytes)
| EvWrite (c : nat) (h : option Z) (data : bytes) (response : bool) (r : Res unit).

(** What the radio link answers, given everything that happened before. *)
Record Transport := {
  on_connect : list Event -> nat -> Res unit;
  on_disconnect : list Event -> nat -> Res unit;
  on_is_connected : list Event -> nat -> bool;
  on_read : list Event -> nat -> option Z -> Res bytes;
  on_write : list Event -> nat -> option Z -> bytes -> bool -> Res unit
}.

(** ** The object *)

(** The fields set by [Switchmate.__init__]. *)
Record Switchmate := {
  _mac : string;
  state : bool;
  _device : option nat;
  available : bool;
  _flip_on_off : bool;
  _handle : option Z
}.

(** [Switchmate(mac, flip_on_off)] *)
Definition init (mac : string) (flip_on_off : bool) : Switchmate :=
  {| _mac := mac; state := false; _device := None; available := false;
     _flip_on_off := flip_on_off; _handle := None |}.

Definition set_state (b : bool) (s : Switchmate) : Switchmate :=
  {| _mac := _mac s; state := b; _device := _device s;
     available := available s; _flip_on_off := _flip_on_off s;
     _handle := _handle s |}.

Definition set_device (d : option nat) (s : Switchmate) : Switchmate :=
  {| _mac := _mac s; state := state s; _device := d;
     available := available s; _flip_on_off := _flip_on_off s;
     _handle := _handle s |}.

Definition set_available (b : bool) (s : Switchmate) : Switchmate :=
  {| _mac := _mac s; state := state s; _device := _device s;
     available := b; _flip_on_off := _flip_on_off s;
     _handle := _handle s |}.

Definition set_handle (h : option Z) (s : Switchmate) : Switchmate :=
  {| _mac := _mac s; state := state s; _device := _device s;
     available := available s; _flip_on_off := _flip_on_off s;
     _handle := h |}.

(** [self], the calls made so far, the number of clients created so far, and
    a ghost counter of how many times the [try] body of [_communicate] was
    entered. *)
Record World := {
  self : Switchmate;
  trace : list Event;
  clients : nat;
  attempts : nat
}.

Definition fresh (s : Switchmate) : World :=
  {| self := s; trace := []; clients := 0; attempts := 0 |}.

Definition on_self (f : Switchmate -> Switchmate) (w : World) : World :=
  {| self := f (self w); trace := trace w; clients := clients w;
     attempts := attempts w |}.

Definition emit (e : Event) (w : World) : World :=
  {| self := self w; trace := trace w ++ [e]; clients := clients w;
     attempts := attempts w |}.

Definition tick (w : World) : World :=
  {| self := self w; trace := trace w; clients := clients w;
     attempts := S (attempts w) |}.

(** ** Coroutines as state transformers *)

Definition M (A : Type) : Type := World -> Res A * World.

Definition ret {A} (a : A) : M A := fun w => (Ret a, w).

Definition raise {A} (e : exn) : M A := fun w => (Exc e, w).

Definition bind {A B} (m : M A) (k : A -> M B) : M B := fun w =>
  match m w with
  | (Ret a, w1) => k a w1
  | (Exc e, w1) => (Exc e, w1)
  end.

Notation "x <- m ;; k" := (bind m (fun x => k))
  (at level 61, m at next level, right associativity).
Notation "m ;; k" := (bind m (fun _ => k))
  (at level 61, right associativity).

Definition attr {A} (f : Switchmate -> A) : M A := fun w => (Ret (f (self w)), w).

Definition assign (f : Switchmate -> Switchmate) : M unit :=
  fun w => (Ret tt, on_self f w).

(** [try: body / except (BleakError, TimeoutError): handler], followed by
    [rest].  The handler of every [try] in the file ends in [return], so
    [rest] runs only when the body raised nothing; an exception of another
    class leaves the function. *)
Definition try_except {A B} (body : M A) (handler : M B) (rest : A -> M B)
  : M B := fun w =>
  match body w with
  | (Ret a, w1) => rest a w1
  | (Exc e, w1) => if caught e then handler w1 else (Exc e, w1)
  end.

(** [async with CONNECT_LOCK: body].  The lock is left on every exit.  No
    method takes the lock while it holds it, so in a run of one coroutine the
    lock is free whenever it is asked for. *)
Definition with_lock {A} (body : M A) : M A := fun w =>
  let '(r, w1) := body (emit EvAcquire w) in (r, emit EvRelease w1).

Section Client.

Variable tr : Transport.

(** A transport operation: ask the link, record the call with its outcome,
    return or raise. *)
Definition call {A} (answer : list Event -> Res A) (ev : Res A -> Event)
  : M A := fun w =>
  let r := answer (trace w) in (r, emit (ev r) w).

(** [self._device.<method>]: an [AttributeError] when the field is [None]. *)
Definition device {A} (method : nat -> M A) : M A :=
  d <- attr _device ;;
  match d with
  | None => raise AttributeError
  | Some c => method c
  end.

Definition connect (c : nat) : M unit :=
  call (fun t => on_connect tr t c) (EvConnect c).

Definition disconnect (c : nat) : M unit :=
  call (fun t => on_disconnect tr t c) (EvDisconnect c).

Definition is_connected (c : nat) : M bool :=
  fun w => (Ret (on_is_connected tr (trace w) c), w).

Definition read_gatt_char (h : option Z) (c : nat) : M bytes :=
  call (fun t => on_read tr t c h) (EvRead c h).

Definition write_gatt_char (h : option Z) (data : bytes) (response : bool)
  (c : nat) : M unit :=
  call (fun t => on_write tr t c h data response) (EvWrite c h data response).

(** [self._device = bleak.BleakClient(self._mac)] *)
Definition new_client : M unit := fun w =>
  let c := clients w in
  (Ret tt,
   {| self := set_device (Some c) (self w);
      trace := trace w ++ [EvNew c (_mac (self w))];
      clients := S c;
      attempts := attempts w |}).

(** ** The methods of [Switchmate] *)

Definition _disconnect : M bool :=
  try_except
    (with_lock (device disconnect))
    (ret false)
    (fun _ => ret true).

Definition _connect : M bool :=
  d <- attr _device ;;
  match d with
  | Some _ => _ <- _disconnect ;; ret tt
  | None => ret tt
  end ;;
  new_client ;;
  try_except
    (with_lock
       (device connect ;;
        h <- attr _handle ;;
        match h with
        | None =>
            p <- device (read_gatt_char (Some 21)) ;;
            assign (set_handle (Some (if bytes_eqb p Bright then 47 else 45)))
        | Some _ => ret tt
        end))
    (ret false)
    (fun _ => ret true).

(** Truth value of the [key] argument: [None] and [b""] are false. *)
Definition truthy (key : option bytes) : bool :=
  match key with
  | None | Some [] => false
  | Some (_ :: _) => true
  end.

Definition key_bytes (key : option bytes) : bytes :=
  match key with
  | None => []
  | Some k => k
  end.

(** [self._device is None or not self._device.is_connected] *)
Definition not_connected : M bool :=
  d <- attr _device ;;
  match d with
  | None => ret true
  | Some c => b <- is_connected c ;; ret (negb b)
  end.

(** The body of the [try] statement of [_communicate]. *)
Definition try_body (key : option bytes) : M unit :=
  (fun w => (Ret tt, tick w)) ;;
  nc <- not_connected ;;
  failed <- (if nc then (ok <- _connect ;; ret (negb ok)) else ret false) ;;
  (if failed then raise BleakError else ret tt) ;;
  with_lock
    (if truthy key then
       device (fun c =>
         h <- attr _handle ;;
         write_gatt_char h (key_bytes key) true c)
     else
       p <- device (fun c => h <- attr _handle ;; read_gatt_char h c) ;;
       flip <- attr _flip_on_off ;;
       assign (set_state (bytes_eqb p (if negb flip then ON_KEY else OFF_KEY)))).

Unset Equations With Funext.

Equations _communicate (key : option bytes) (retry : bool) (w : World)
  : Res bool * World by wf (Nat.b2n retry) lt :=
  _communicate key retry w with try_body key w := {
    | (Ret _, w1) => (Ret true, on_self (set_available true) w1)
    | (Exc e, w1) with caught e := {
        | false => (Exc e, w1)
        | true with retry := {
            | true => _communicate key false w1
            | false => (Ret false, on_self (set_available false) w1) } } }.

Definition update : M bool := _communicate None true.

Definition turn_on : M bool := fun w =>
  _communicate
    (Some (if negb (_flip_on_off (self w)) then ON_KEY else OFF_KEY)) true w.

Definition turn_off : M bool := fun w =>
  _communicate
    (Some (if negb (_flip_on_off (self w)) then OFF_KEY else ON_KEY)) true w.

(** ** Sessions *)

(** The operations a caller can run on one object. *)
Inductive Op :=
| OpConnect
| OpDisconnect
| OpCommunicate (key : option bytes) (retry : bool)
| OpUpdate
| OpTurnOn
| OpTurnOff.

Definition run_op (o : Op) : M bool :=
  match o with
  | OpConnect => _connect
  | OpDisconnect => _disconnect
  | OpCommunicate key retry => _communicate key retry
  | OpUpdate => update
  | OpTurnOn => turn_on
  | OpTurnOff => turn_off
  end.

(** A session: operations run one after the other, whatever each of them
    returned or raised. *)
Definition run_ops (ops : list Op) (w : World) : World :=
  fold_left (fun w o => snd (run_op o w)) ops w.

(** How a sequence of attempts of [_communicate key retry] ends, in terms
    of runs of the [try] body: [true] when an attempt raised nothing,
    [false] when the last attempt allowed raised one of the two caught
    classes. *)
Inductive attempts_end (key : option bytes) : bool -> World -> bool -> Prop :=
| attempt_succeeds retry w u :
    fst (try_body key w) = Ret u ->
    attempts_end key retry w true
| attempt_fails_last w e :
    fst (try_body key w) = Exc e -> caught e = true ->
    attempts_end key false w false
| attempt_fails_retry w e b :
    fst (try_body key w) = Exc e -> caught e = true ->
    attempts_end key false (snd (try_body key w)) b ->
    attempts_end key true w b.

(** The runs of [_communicate key retry] as a relation between the world
    at the call, the outcome and the world at the return, one rule per path
    through the [try] statement. *)
Inductive comm_run (key : option bytes)
  : bool -> World -> Res bool -> World -> Prop :=
| run_done retry w u w1 :
    try_body key w = (Ret u, w1) ->
    comm_run key retry w (Ret true) (on_self (set_available true) w1)
| run_escapes retry w e w1 :
    try_body key w = (Exc e, w1) -> caught e = false ->
    comm_run key retry w (Exc e) w1
| run_gives_up w e w1 :
    try_body key w = (Exc e, w1) -> caught e = true ->
    comm_run key false w (Ret false) (on_self (set_available false) w1)
| run_again w e w1 r w' :
    try_body key w = (Exc e, w1) -> caught e = true ->
    comm_run key false w1 r w' ->
    comm_run key true w r w'.

End Client.

(** ** The entity *)

Module Entity.

(** The fields set by [SwitchmateEntity.__init__]; [_device] is the
    [Switchmate] object. *)
Record SwitchmateEntity := {
  _mac : string;
  _name : string;
  _device : Switchmate
}.

(** [SwitchmateEntity(mac, name, flip_on_off)] *)
Definition init (mac name : string) (flip_on_off : bool) : SwitchmateEntity :=
  {| _mac := mac; _name := name; _device := init mac flip_on_off |}.

(** [str.replace(old, new)] for an [old] of one character: every occurrence
    of [old], from left to right, becomes [new]. *)
Fixpoint replace (old : ascii) (new : string) (s : string) : string :=
  match s with
  | EmptyString => EmptyString
  | String c rest =>
      if Ascii.eqb c old then (new ++ replace old new rest)%string
      else String c (replace old new rest)
  end.

Definition unique_id (e : SwitchmateEntity) : string :=
  replace ":" "" (_mac e).

Definition available (e : SwitchmateEntity) : bool :=
  available (_device e).

Definition name (e : SwitchmateEntity) : string := _name e.

Definition is_on (e : SwitchmateEntity) : bool := state (_device e).

End Entity.

(** ** Reading traces *)

(** The calls made between two worlds of one run. *)
Definition new_events (w w' : World) : list Event :=
  skipn (List.length (trace w)) (trace w').

Definition is_connect (e : Event) : bool :=
  match e with EvConnect _ _ => true | _ => false end.

Definition is_disconnect (e : Event) : bool :=
  match e with EvDisconnect _ _ => true | _ => false end.

Definition is_read (e : Event) : bool :=
  match e with EvRead _ _ _ => true | _ => false end.

Definition is_write (e : Event) : bool :=
  match e with EvWrite _ _ _ _ _ => true | _ => false end.

Definition count (f : Event -> bool) (evs : list Event) : nat :=
  List.length (filter f evs).

(** [_connect] got as far as creating a client and asking it to connect:
    what it did from then on is [rest]. *)
Definition opens_client (w : World) (rest : list Event) : Prop :=
  exists o rest',
    rest = EvNew (clients w) (_mac (self w)) :: EvAcquire ::
           EvConnect (clients w) o :: rest'.

(** The calls of a run that sends [marker]: every write carries it, asks for
    a response and goes to the handle stored in [_handle], as it was at the
    call or as it is at the return (the field changes at most once); every
    read is the probe of handle 21. *)
Definition writes_only (marker : bytes) (w w' : World) (evs : list Event)
  : Prop :=
  (forall c h data resp o, In (EvWrite c h data resp o) evs ->
     data = marker /\ resp = true /\
     (h = _handle (self w) \/ h = _handle (self w'))) /\
  (forall c h o, In (EvRead c h o) evs -> h = Some 21).

(** The run ended with a write of [marker] to the stored handle, answered by
    the peripheral. *)
Definition ends_with_write (marker : bytes) (w' : World) (evs : list Event)
  : Prop :=
  exists pre c,
    evs = pre ++
      [EvAcquire; EvWrite c (_handle (self w')) marker true (Ret tt);
       EvRelease].

(** A transport call that returned rather than raised. *)
Definition returned (e : Event) : bool :=
  match e with
  | EvConnect _ (Ret _) | EvDisconnect _ (Ret _)
  | EvRead _ _ (Ret _) | EvWrite _ _ _ _ (Ret _) => true
  | _ => false
  end.

(** ** Sample peripherals *)

Definition is_op (e : Event) : bool :=
  is_connect e || is_disconnect e || is_read e || is_write e.

(** Whether the link of client [c] is up after the calls of [t]: its last
    [connect] or [disconnect] was a [connect] that returned. *)
Fixpoint linked (c : nat) (t : list Event) (up : bool) : bool :=
  match t with
  | [] => up
  | EvConnect c' (Ret _) :: t' =>
      linked c t' (if Nat.eqb c' c then true else up)
  | EvConnect c' (Exc _) :: t' | EvDisconnect c' _ :: t' =>
      linked c t' (if Nat.eqb c' c then false else up)
  | _ :: t' => linked c t' up
  end.

(** A peripheral following a script: its n-th operation raises [plan n] when
    that is an exception and succeeds otherwise; handle 21 reads as [model],
    any other handle as [level]. *)
Definition scripted (plan : list (option exn)) (model level : bytes)
  : Transport :=
  let answer {A} (t : list Event) (a : A) : Res A :=
    match nth (count is_op t) plan None with
    | Some e => Exc e
    | None => Ret a
    end in
  {| on_connect := fun t _ => answer t tt;
     on_disconnect := fun t _ => answer t tt;
     on_is_connected := fun t c => linked c t false;
     on_read := fun t _ h =>
       answer t (match h with Some 21 => model | _ => level end);
     on_write := fun t _ _ _ _ => answer t tt |}.

(** A peripheral out of reach: every operation raises [e]. *)
Definition down (e : exn) : Transport :=
  {| on_connect := fun _ _ => Exc e;
     on_disconnect := fun _ _ => Exc e;
     on_is_connected := fun _ _ => false;
     on_read := fun _ _ _ => Exc e;
     on_write := fun _ _ _ _ _ => Exc e |}.

(** The "Bright" model, switched on, on a link that works. *)
Definition steady : Transport := scripted [] Bright ON_KEY.

(** The other model, switched off: the probe returns an empty payload. *)
Definition plain : Transport := scripted [] [] OFF_KEY.

(** A link whose third operation times out. *)
Definition flaky : Transport :=
  scripted [None; None; Some TimeoutError] Bright ON_KEY.

Definition mac0 : string := "AA:BB:CC:DD:EE:FF".

(** A new object, and the same after a first [update] on the steady link. *)
Definition new0 (flip_on_off : bool) : World := fresh (init mac0 flip_on_off).

Definition synced0 : World := snd (update steady (new0 false)).

(** ** The lock, and more on traces *)

Definition is_new (e : Event) : bool :=
  match e with EvNew _ _ => true | _ => false end.

(** The exception with which a recorded call ended, if it raised. *)
Definition raised (e : Event) : option exn :=
  match e with
  | EvConnect _ (Exc x) | EvDisconnect _ (Exc x)
  | EvRead _ _ (Exc x) | EvWrite _ _ _ _ (Exc x) => Some x
  | _ => None
  end.

(** [CONNECT_LOCK] followed through a list of events, from [held]: [None]
    when the lock is asked for while it is held (an [asyncio.Lock] is not
    reentrant, the coroutine would wait for itself), when it is left while
    free, or when the transport is called without it; otherwise whether it
    is held at the end. *)
Fixpoint lock_scan (held : bool) (evs : list Event) : option bool :=
  match evs with
  | [] => Some held
  | EvAcquire :: t => if held then None else lock_scan true t
  | EvRelease :: t => if held then lock_scan false t else None
  | EvNew _ _ :: t => lock_scan held t
  | _ :: t => if held then lock_scan held t else None
  end.

(** A read or a write goes to handle [h]; other events pass. *)
Definition on_handle (h : Z) (e : Event) : Prop :=
  match e with
  | EvRead _ h' _ | EvWrite _ h' _ _ _ => h' = Some h
  | _ => True
  end.

(** The call does not involve a client other than [c]. *)
Definition on_client (c : nat) (e : Event) : Prop :=
  match e with
  | EvNew c' _ | EvConnect c' _ | EvDisconnect c' _
  | EvRead c' _ _ | EvWrite c' _ _ _ _ => c' = c
  | _ => True
  end.



(** Clients and [connect] go in pairs: a client is created only to be
    asked to connect at once, under the lock, and [connect] is called on no
    other occasion. *)
Inductive paired : list Event -> Prop :=
| paired_nil : paired []
| paired_new c mac o t :
    paired t -> paired (EvNew c mac :: EvAcquire :: EvConnect c o :: t)
| paired_other e t :
    is_new e = false -> is_connect e = false -> paired t -> paired (e :: t).

(** What can happen to [_handle] between two worlds: nothing, or a move
    from unknown to 45 or to 47. *)
Definition handle_step (w w' : World) : Prop :=
  _handle (self w') = _handle (self w) \/
  _handle (self w) = None /\
  (_handle (self w') = Some 45 \/ _handle (self w') = Some 47).

(** A transport that raises nothing but the two classes of the [except]
    clauses. *)
Definition polite (tr : Transport) : Prop :=
  (forall t c e, on_connect tr t c = Exc e -> caught e = true) /\
  (forall t c e, on_disconnect tr t c = Exc e -> caught e = true) /\
  (forall t c h e, on_read tr t c h = Exc e -> caught e = true) /\
  (forall t c h d r e, on_write tr t c h d r = Exc e -> caught e = true).

(** The one transfer of an attempt: the write of [key] when it is a true
    value, the read of the state otherwise, on client [c] and handle [h]. *)
Definition transfer (key : option bytes) (c : nat) (h : option Z)
  (e : Event) : Prop :=
  if truthy key then exists o, e = EvWrite c h (key_bytes key) true o
  else exists o, e = EvRead c h o.

(** ** The methods of the entity *)

(** [async_update], [async_turn_on] and [async_turn_off] of
    [SwitchmateEntity] await the method of the [Switchmate] object and drop
    what it returns.  The entity's [_device] is the object in [self]. *)
Definition async_update (tr : Transport) : M unit :=
  _ <- update tr ;; ret tt.

Definition async_turn_on (tr : Transport) : M unit :=
  _ <- turn_on tr ;; ret tt.

Definition async_turn_off (tr : Transport) : M unit :=
  _ <- turn_off tr ;; ret tt.

(** The entity built by [SwitchmateEntity(mac, name, flip_on_off)], as it
    stands when its object is the one of [w]. *)
Definition entity_of (name : string) (w : World) : Entity.SwitchmateEntity :=
  {| Entity._mac := _mac (self w); Entity._name := name;
     Entity._device := self w |}.

(** ** Weakest preconditions *)

(** [wp m Q w]: running [m] from [w] ends in an outcome and a world that
    satisfy [Q]. *)
Definition wp {A} (m : M A) (Q : Res A -> World -> Prop) (w : World) : Prop :=
  Q (fst (m w)) (snd (m w)).

(** * Proofs *)

(** ** Rules for [wp] *)

Lemma wp_ret A (a : A) Q w : Q (Ret a) w -> wp (ret a) Q w.
Proof. exact (fun H => H). Qed.

Lemma wp_raise A e (Q : Res A -> World -> Prop) w :
  Q (Exc e) w -> wp (raise e) Q w.
Proof. exact (fun H => H). Qed.

Lemma wp_attr A (f : Switchmate -> A) Q w :
  Q (Ret (f (self w))) w -> wp (attr f) Q w.
Proof. exact (fun H => H). Qed.

Lemma wp_assign f Q w : Q (Ret tt) (on_self f w) -> wp (assign f) Q w.
Proof. exact (fun H => H). Qed.

Lemma wp_bind A B (m : M A) (k : A -> M B) Q w :
  wp m (fun r w1 =>
          match r with
          | Ret a => wp (k a) Q w1
          | Exc e => Q (Exc e) w1
          end) w ->
  wp (bind m k) Q w.
Proof.
  unfold wp, bind. destruct (m w) as [[a|e] w1]; simpl; auto.
Qed.

Lemma wp_try A B (body : M A) (handler : M B) (rest : A -> M B) Q w :
  wp body (fun r w1 =>
             match r with
             | Ret a => wp (rest a) Q w1
             | Exc e => if caught e then wp handler Q w1 else Q (Exc e) w1
             end) w ->
  wp (try_except body handler rest) Q w.
Proof.
  unfold wp, try_except. destruct (body w) as [[a|e] w1]; simpl; auto.
  destruct (caught e); auto.
Qed.

Lemma wp_lock A (body : M A) Q w :
  wp body (fun r w1 => Q r (emit EvRelease w1)) (emit EvAcquire w) ->
  wp (with_lock body) Q w.
Proof.
  unfold wp, with_lock. destruct (body _) as [r w1]; simpl; auto.
Qed.

Lemma wp_call A (answer : list Event -> Res A) ev
  (Q : Res A -> World -> Prop) w :
  Q (answer (trace w)) (emit (ev (answer (trace w))) w) ->
  wp (call answer ev) Q w.
Proof. exact (fun H => H). Qed.

Lemma wp_new_client (Q : Res unit -> World -> Prop) w :
  Q (Ret tt)
    {| self := set_device (Some (clients w)) (self w);
       trace := trace w ++ [EvNew (clients w) (_mac (self w))];
       clients := S (clients w);
       attempts := attempts w |} ->
  wp new_client Q w.
Proof. exact (fun H => H). Qed.

Lemma wp_is_connected tr c (Q : Res bool -> World -> Prop) w :
  Q (Ret (on_is_connected tr (trace w) c)) w -> wp (is_connected tr c) Q w.
Proof. exact (fun H => H). Qed.

Lemma wp_tick (Q : Res unit -> World -> Prop) w :
  Q (Ret tt) (tick w) -> wp (fun w => (Ret tt, tick w)) Q w.
Proof. exact (fun H => H). Qed.

Lemma wp_mono A (m : M A) (Q Q' : Res A -> World -> Prop) w :
  wp m Q w -> (forall r w', Q r w' -> Q' r w') -> wp m Q' w.
Proof. unfold wp; auto. Qed.

Lemma wp_elim A (m : M A) Q w r w' : wp m Q w -> m w = (r, w') -> Q r w'.
Proof. unfold wp. intros H E. rewrite E in H. exact H. Qed.

Arguments wp_elim {A m Q w r w'} _ _.

(** A case split on [d], unless a hypothesis already tells its value. *)
Ltac wp_case d :=
  lazymatch goal with
  | H : d = _ |- _ => rewrite H
  | _ => destruct d eqn:?
  end.

(** One step of symbolic execution: the rule of the head combinator, the
    body of a method, or a case split on the value a branch looks at. *)
Ltac wp_step :=
  lazymatch goal with
  | |- wp (bind _ _) _ _ => apply wp_bind
  | |- wp (ret _) _ _ => apply wp_ret
  | |- wp (raise _) _ _ => apply wp_raise
  | |- wp (attr _) _ _ => apply wp_attr
  | |- wp (assign _) _ _ => apply wp_assign
  | |- wp (try_except _ _ _) _ _ => apply wp_try
  | |- wp (with_lock _) _ _ => apply wp_lock
  | |- wp (call _ _) _ _ => apply wp_call
  | |- wp new_client _ _ => apply wp_new_client
  | |- wp (is_connected _ _) _ _ => apply wp_is_connected
  | |- wp (fun w => (Ret tt, tick w)) _ _ => apply wp_tick
  | |- wp (device _) _ _ => unfold device
  | |- wp (connect _ _) _ _ => unfold connect
  | |- wp (disconnect _ _) _ _ => unfold disconnect
  | |- wp (read_gatt_char _ _ _) _ _ => unfold read_gatt_char
  | |- wp (write_gatt_char _ _ _ _ _) _ _ => unfold write_gatt_char
  | |- wp (not_connected _) _ _ => unfold not_connected
  | |- wp (_disconnect _) _ _ => unfold _disconnect
  | |- wp (_connect _) _ _ => unfold _connect
  | |- wp (try_body _ _) _ _ => unfold try_body
  | |- wp (match ?d with _ => _ end) _ _ => wp_case d
  | |- match ?r with _ => _ end => wp_case r
  end; cbn beta iota.

Ltac wp_fields :=
  cbn [self trace clients attempts emit on_self tick
       set_device set_handle set_state set_available
       _device _handle _mac state available _flip_on_off negb] in *.

Ltac wp_run := repeat (wp_step; wp_fields).

(** Closing the leaves: field equalities, after a last case split when the
    postcondition looks at the outcome. *)
Ltac wp_done :=
  repeat split; auto; intros; try congruence;
  repeat match goal with
         | |- match ?r with _ => _ end => wp_case r
         end;
  auto; try congruence.

Ltac units := repeat match goal with a : unit |- _ => destruct a end.

(** The trace of a finished run, as the starting trace followed by a list. *)
Ltac flat_trace := rewrite <- ?app_assoc; cbn [app].

(** Goals [trace w' = trace w ++ ?evs], and the same with the last two or
    three calls set apart. *)
Ltac new_trace := flat_trace; first [reflexivity | symmetry; apply app_nil_r].

Lemma snoc2 A (l : list A) a b : (l ++ [a]) ++ [b] = l ++ [a; b].
Proof. rewrite <- !app_assoc. reflexivity. Qed.

Lemma snoc3 A (l : list A) a b c :
  ((l ++ [a]) ++ [b]) ++ [c] = l ++ [a; b; c].
Proof. rewrite <- !app_assoc. reflexivity. Qed.

Ltac suffix2 :=
  rewrite snoc2; rewrite (app_assoc (trace _)); f_equal; new_trace.

Ltac suffix3 :=
  rewrite snoc3; rewrite (app_assoc (trace _)); f_equal; new_trace.

(** Membership in a list that is written out. *)
Ltac in_cases :=
  cbn [In] in *; intros;
  repeat match goal with
         | H : _ \/ _ |- _ => destruct H
         | H : False |- _ => destruct H
         end;
  try discriminate.


(** ** The recursion of [_communicate] *)

(** The method in one equation: the self-call sits in the handler, under
    [retry], and passes [false]. *)
Lemma _communicate_eq tr key retry w :
  _communicate tr key retry w =
  match try_body tr key w with
  | (Ret _, w1) => (Ret true, on_self (set_available true) w1)
  | (Exc e, w1) =>
      if caught e then
        if retry then _communicate tr key false w1
        else (Ret false, on_self (set_available false) w1)
      else (Exc e, w1)
  end.
Proof.
  rewrite _communicate_equation_1.
  destruct (try_body tr key w) as [[u|e] w1]; simpl; [reflexivity|].
  destruct (caught e); simpl; [|reflexivity].
  destruct retry; reflexivity.
Qed.

(** A property of the final world that one run of the [try] body
    establishes from any world, that composes, and that the assignments to
    [available] keep, holds of every call. *)
Lemma _communicate_rel tr key (R : World -> World -> Prop) :
  (forall w, wp (try_body tr key) (fun _ w' => R w w') w) ->
  (forall w1 w2 w3, R w1 w2 -> R w2 w3 -> R w1 w3) ->
  (forall w w' b, R w w' -> R w (on_self (set_available b) w')) ->
  forall retry w, R w (snd (_communicate tr key retry w)).
Proof.
  intros Hbody Htrans Havail.
  assert (Hlast : forall w, R w (snd (_communicate tr key false w))).
  { intros w. rewrite _communicate_eq. specialize (Hbody w).
    unfold wp in Hbody.
    destruct (try_body tr key w) as [[u|e] w1]; simpl in *; auto.
    destruct (caught e); simpl; auto. }
  intros [|] w; [|apply Hlast].
  rewrite _communicate_eq. specialize (Hbody w). unfold wp in Hbody.
  destruct (try_body tr key w) as [[u|e] w1]; simpl in *; auto.
  destruct (caught e); simpl; auto.
  eapply Htrans; [exact Hbody | apply Hlast].
Qed.

Section Frames.

Variable tr : Transport.

(** ** What the methods leave alone *)

(** [_disconnect] assigns no field. *)
Lemma _disconnect_self w :
  wp (_disconnect tr) (fun _ w' =>
    self w' = self w /\ attempts w' = attempts w /\ clients w' = clients w) w.
Proof. wp_run; auto. Qed.

(** [_connect] assigns [_device], and [_handle] when it is [None]. *)
Lemma _connect_frame w :
  wp (_connect tr) (fun _ w' =>
    _mac (self w') = _mac (self w) /\
    state (self w') = state (self w) /\
    available (self w') = available (self w) /\
    _flip_on_off (self w') = _flip_on_off (self w) /\
    attempts w' = attempts w /\
    (forall h, _handle (self w) = Some h -> _handle (self w') = Some h)) w.
Proof. wp_run; wp_done. Qed.

(** One run of the [try] body: it is counted once, it assigns [state] only
    in the read branch and only when it raises nothing, and it keeps the
    address, the polarity, [available] and a known [_handle]. *)
Lemma try_body_frame key w :
  wp (try_body tr key) (fun r w' =>
    attempts w' = S (attempts w) /\
    _mac (self w') = _mac (self w) /\
    _flip_on_off (self w') = _flip_on_off (self w) /\
    available (self w') = available (self w) /\
    (forall h, _handle (self w) = Some h -> _handle (self w') = Some h) /\
    (truthy key = true -> state (self w') = state (self w)) /\
    match r with
    | Ret _ => True
    | Exc _ => state (self w') = state (self w)
    end) w.
Proof. wp_run; wp_done. Qed.

Lemma _communicate_handle key retry w h :
  _handle (self w) = Some h ->
  _handle (self (snd (_communicate tr key retry w))) = Some h.
Proof.
  revert h.
  apply (_communicate_rel tr key
           (fun w w' => forall h, _handle (self w) = Some h ->
                                  _handle (self w') = Some h)); auto.
  intros w0. eapply wp_mono; [apply try_body_frame|]. cbv beta. tauto.
Qed.

Lemma _communicate_flip key retry w :
  _flip_on_off (self (snd (_communicate tr key retry w))) =
  _flip_on_off (self w).
Proof.
  apply (_communicate_rel tr key
           (fun w w' => _flip_on_off (self w') = _flip_on_off (self w))).
  - intros w0. eapply wp_mono; [apply try_body_frame|]. cbv beta. tauto.
  - congruence.
  - auto.
Qed.

Lemma _communicate_write_state key retry w :
  truthy key = true ->
  state (self (snd (_communicate tr key retry w))) = state (self w).
Proof.
  intros Hkey.
  apply (_communicate_rel tr key
           (fun w w' => state (self w') = state (self w))).
  - intros w0. eapply wp_mono; [apply try_body_frame|]. cbv beta. tauto.
  - congruence.
  - auto.
Qed.

Lemma _communicate_attempts_last key w :
  attempts (snd (_communicate tr key false w)) = S (attempts w).
Proof.
  rewrite _communicate_eq.
  pose proof (try_body_frame key w) as H. unfold wp in H.
  destruct (try_body tr key w) as [[u|e] w1]; simpl in *; [tauto|].
  destruct (caught e); simpl; tauto.
Qed.

Lemma _communicate_attempts_retry key w :
  (S (attempts w) <= attempts (snd (_communicate tr key true w))
   <= S (S (attempts w)))%nat.
Proof.
  rewrite _communicate_eq.
  pose proof (try_body_frame key w) as H. unfold wp in H.
  destruct (try_body tr key w) as [[u|e] w1]; simpl in *.
  - lia.
  - destruct (caught e); simpl; [|lia].
    rewrite _communicate_attempts_last. lia.
Qed.

End Frames.

Section Runs.

Variable tr : Transport.

(** Every call is one of the runs of [comm_run]. *)
Lemma _communicate_run key retry w :
  comm_run tr key retry w
    (fst (_communicate tr key retry w)) (snd (_communicate tr key retry w)).
Proof.
  assert (Hlast : forall w0,
    comm_run tr key false w0
      (fst (_communicate tr key false w0))
      (snd (_communicate tr key false w0))).
  { intros w0. rewrite _communicate_eq.
    destruct (try_body tr key w0) as [[u|e] w1] eqn:E; simpl.
    - eapply run_done; eauto.
    - destruct (caught e) eqn:C; simpl.
      + eapply run_gives_up; eauto.
      + eapply run_escapes; eauto. }
  destruct retry; [|apply Hlast].
  rewrite _communicate_eq.
  destruct (try_body tr key w) as [[u|e] w1] eqn:E; simpl.
  - eapply run_done; eauto.
  - destruct (caught e) eqn:C; simpl.
    + eapply run_again; eauto.
    + eapply run_escapes; eauto.
Qed.

(** The runs are those of the function: a call has one outcome. *)
Lemma comm_run_fun key retry w r w' :
  comm_run tr key retry w r w' -> _communicate tr key retry w = (r, w').
Proof.
  induction 1; rewrite _communicate_eq;
    match goal with H : try_body _ _ _ = _ |- _ => rewrite H end;
    try match goal with H : caught _ = _ |- _ => rewrite H end; auto.
Qed.

End Runs.

Section Traces.

Variable tr : Transport.

(** ** The calls of one run of the [try] body *)

Lemma count_app f l1 l2 : count f (l1 ++ l2) = (count f l1 + count f l2)%nat.
Proof. unfold count. rewrite filter_app, length_app. reflexivity. Qed.

(** At most one [connect], one [disconnect], one write and two reads. *)
Lemma try_body_counts key w :
  wp (try_body tr key) (fun _ w' => exists evs,
    trace w' = trace w ++ evs /\
    (count is_connect evs <= 1)%nat /\
    (count is_disconnect evs <= 1)%nat /\
    (count is_write evs <= 1)%nat /\
    (count is_read evs <= 2)%nat) w.
Proof.
  wp_run; eexists; (split; [new_trace|]); cbn; lia.
Qed.

(** A write carries [key], asks for a response and goes to [_handle]; a
    read is the probe or, without a key, the read of [_handle]. *)
Lemma try_body_calls key w :
  wp (try_body tr key) (fun _ w' => exists evs,
    trace w' = trace w ++ evs /\
    (forall c h data resp o, In (EvWrite c h data resp o) evs ->
       truthy key = true /\ data = key_bytes key /\ resp = true /\
       h = _handle (self w')) /\
    (forall c h o, In (EvRead c h o) evs ->
       h = Some 21 \/ truthy key = false /\ h = _handle (self w'))) w.
Proof.
  wp_run; eexists; (split; [new_trace|]); split; in_cases;
    match goal with
    | H : _ = _ |- _ => inversion H; subst; auto
    end.
Qed.

(** How a run ends: with the write or the read, answered, when it raises
    nothing; with a call that raised when it raises a caught exception. *)
Lemma try_body_ends key w :
  wp (try_body tr key) (fun r w' =>
    match r with
    | Ret _ =>
        exists pre c,
          _device (self w') = Some c /\
          if truthy key then
            trace w' = trace w ++ pre ++
              [EvAcquire;
               EvWrite c (_handle (self w')) (key_bytes key) true (Ret tt);
               EvRelease]
          else
            exists p,
              trace w' = trace w ++ pre ++
                [EvAcquire; EvRead c (_handle (self w')) (Ret p); EvRelease] /\
              state (self w') =
                bytes_eqb p (if _flip_on_off (self w) then OFF_KEY else ON_KEY)
    | Exc e =>
        caught e = true ->
        exists pre ev,
          trace w' = trace w ++ pre ++ [ev; EvRelease] /\ returned ev = false
    end) w.
Proof.
  wp_run; units;
    try match goal with
        | |- match ?r with _ => _ end => wp_case r
        end;
    try discriminate.
  all: try (intros _; do 2 eexists; split; [suffix2 | reflexivity]).
  all: do 2 eexists; (split; [first [reflexivity | eassumption]|]).
  all: try suffix3.
  all: eexists; split;
    [suffix3 | destruct (_flip_on_off (self w)); reflexivity].
Qed.

(** ** The calls of [_connect] *)

Lemma _connect_disconnects w c :
  _device (self w) = Some c ->
  wp (_connect tr) (fun r w' => exists o rest,
    trace w' = trace w ++ [EvAcquire; EvDisconnect c o; EvRelease] ++ rest /\
    match o with
    | Ret _ => opens_client w rest
    | Exc e => if caught e then opens_client w rest
               else rest = [] /\ r = Exc e
    end) w.
Proof.
  intros Hc. unfold opens_client.
  wp_run; try congruence.
  all: do 2 eexists; (split; [new_trace|]); cbv beta iota;
    repeat match goal with H : caught _ = _ |- _ => rewrite H end;
    eauto.
Qed.

Lemma _connect_probes w :
  _handle (self w) = None ->
  wp (_connect tr) (fun _ w' =>
    forall evs, trace w' = trace w ++ evs ->
    In (EvConnect (clients w) (Ret tt)) evs ->
    exists r, In (EvRead (clients w) (Some 21) r) evs /\
      _handle (self w') =
        match r with
        | Ret p => Some (if bytes_eq_dec p Bright then 47 else 45)
        | Exc _ => None
        end) w.
Proof.
  intros Hh.
  wp_run; try congruence; intros evs Hevs Hin.
  all: revert Hevs; flat_trace; intros Hevs;
    apply app_inv_head in Hevs; subst evs.
  all: in_cases.
  all: eexists; split;
    [ cbn [In]; eauto 10
    | unfold bytes_eqb; cbv beta iota;
      try destruct (bytes_eq_dec _ _); auto ].
Qed.

End Traces.

(** * Properties of the methods *)

Section Claims.

Variable tr : Transport.

(** ** Attempts *)

Lemma comm_run_counts key retry w r w' :
  comm_run tr key retry w r w' ->
  exists evs, trace w' = trace w ++ evs /\
    let n := if retry then 2%nat else 1%nat in
    (count is_connect evs <= n /\ count is_disconnect evs <= n /\
     count is_write evs <= n /\ count is_read evs <= 2 * n)%nat.
Proof.
  induction 1 as [retry w u w1 E | retry w e w1 E C | w e w1 E C
                 | w e w1 r w' E C R IH].
  1-3: destruct (wp_elim (try_body_counts tr key w) E) as (evs & T & ?);
    exists evs; split; [exact T|]; try destruct retry; cbn; lia.
  destruct (wp_elim (try_body_counts tr key w) E) as (evs1 & T1 & ?).
  destruct IH as (evs2 & T2 & ?).
  exists (evs1 ++ evs2). split.
  - rewrite T2, T1, app_assoc. reflexivity.
  - cbn in *. rewrite !count_app. lia.
Qed.

(** C1.  A call of [_communicate] with [retry = False] enters the [try]
    body exactly once; a call with [retry = True] enters it once or twice,
    since the self-call in the handler passes [False] (the recursion is on
    that argument, see [_communicate_eq]).  In calls to the transport: at
    most one [connect], [disconnect] and write and two reads (the probe and
    the state) per attempt allowed.  This holds for every key and every
    transport. *)
Theorem communicate_attempts_bounded key w :
  attempts (snd (_communicate tr key false w)) = S (attempts w) /\
  (S (attempts w) <= attempts (snd (_communicate tr key true w))
   <= S (S (attempts w)))%nat /\
  _communicate tr key true w =
    match try_body tr key w with
    | (Ret _, w1) => (Ret true, on_self (set_available true) w1)
    | (Exc e, w1) =>
        if caught e then _communicate tr key false w1 else (Exc e, w1)
    end /\
  (forall retry, exists evs,
     trace (snd (_communicate tr key retry w)) = trace w ++ evs /\
     let n := if retry then 2%nat else 1%nat in
     (count is_connect evs <= n /\ count is_disconnect evs <= n /\
      count is_write evs <= n /\ count is_read evs <= 2 * n)%nat).
Proof.
  split; [apply _communicate_attempts_last|].
  split; [apply _communicate_attempts_retry|].
  split; [apply _communicate_eq|].
  intros retry. eapply comm_run_counts. apply _communicate_run.
Qed.

(** ** Outcome and [available] *)

(** C2.  When the attempts of a call end in a failure of the transport (a
    [BleakError] or a timeout in the only attempt, or in both), the call
    returns [False] and leaves [available] false; when an attempt raises
    nothing, the call returns [True] and leaves [available] true.  [update],
    [turn_on] and [turn_off] are such calls. *)
Theorem communicate_reports_outcome key retry w b :
  attempts_end tr key retry w b ->
  fst (_communicate tr key retry w) = Ret b /\
  available (self (snd (_communicate tr key retry w))) = b.
Proof.
  induction 1 as [retry w u E | w e E C | w e b E C A IH];
    rewrite _communicate_eq;
    destruct (try_body tr key w) as [r1 w1]; simpl in *; subst r1;
    try rewrite C; auto.
Qed.

(** Every call that returns is covered: its attempts ended one way or the
    other, and an exception leaves the call only if no [except] clause
    names it. *)
Lemma communicate_outcomes key retry w :
  match fst (_communicate tr key retry w) with
  | Ret b => attempts_end tr key retry w b
  | Exc e => caught e = false
  end.
Proof.
  pose proof (_communicate_run tr key retry w) as R.
  induction R as [retry w u w1 E | retry w e w1 E C | w e w1 E C
                 | w e w1 r w' E C R IH]; simpl.
  - eapply attempt_succeeds. rewrite E. reflexivity.
  - exact C.
  - eapply attempt_fails_last; [rewrite E; reflexivity | exact C].
  - destruct r; auto.
    eapply attempt_fails_retry; [rewrite E; reflexivity | exact C |].
    rewrite E. exact IH.
Qed.

(** The same read off the trace: the call returns whether the last call to
    the transport returned. *)
Lemma comm_run_last_call key retry w r w' :
  comm_run tr key retry w r w' ->
  forall b, r = Ret b ->
  exists pre ev,
    trace w' = trace w ++ pre ++ [ev; EvRelease] /\ returned ev = b.
Proof.
  induction 1 as [retry w u w1 E | retry w e w1 E C | w e w1 E C
                 | w e w1 r w' E C R IH]; intros b Hb.
  - inversion Hb; subst.
    destruct (wp_elim (try_body_ends tr key w) E) as (pre & c & _ & T).
    destruct (truthy key).
    + exists (pre ++ [EvAcquire]). eexists.
      split; [cbn; rewrite T, <- !app_assoc; reflexivity | reflexivity].
    + destruct T as (p & T & _).
      exists (pre ++ [EvAcquire]). eexists.
      split; [cbn; rewrite T, <- !app_assoc; reflexivity | reflexivity].
  - discriminate.
  - inversion Hb; subst.
    destruct (wp_elim (try_body_ends tr key w) E C) as (pre & ev & T & F).
    exists pre, ev. split; [exact T | exact F].
  - destruct (IH b Hb) as (pre & ev & T & F).
    destruct (wp_elim (try_body_counts tr key w) E) as (evs1 & T1 & _).
    exists (evs1 ++ pre), ev. split; [|exact F].
    rewrite T, T1, <- !app_assoc. reflexivity.
Qed.

Lemma _communicate_last_call key retry w b :
  fst (_communicate tr key retry w) = Ret b ->
  exists pre ev,
    trace (snd (_communicate tr key retry w)) =
      trace w ++ pre ++ [ev; EvRelease] /\
    returned ev = b.
Proof.
  apply (comm_run_last_call (_communicate_run tr key retry w)).
Qed.

(** ** The probe *)

(** C3.  In [_connect] with [_handle] unknown: when the new client's
    [connect] returned, handle 21 was read, and [_handle] is 47 if that read
    returned exactly [b"Bright"], 45 if it returned any other payload; it
    stays unknown if the read raised. *)
Theorem connect_probe_sets_handle w evs :
  _handle (self w) = None ->
  trace (snd (_connect tr w)) = trace w ++ evs ->
  In (EvConnect (clients w) (Ret tt)) evs ->
  exists r, In (EvRead (clients w) (Some 21) r) evs /\
    _handle (self (snd (_connect tr w))) =
      match r with
      | Ret p => Some (if bytes_eq_dec p Bright then 47 else 45)
      | Exc _ => None
      end.
Proof.
  intros Hh. revert evs. exact (_connect_probes tr w Hh).
Qed.

(** ** Polarity *)

Lemma handle_between w w1 w' :
  (forall h, _handle (self w) = Some h -> _handle (self w1) = Some h) ->
  (forall h, _handle (self w1) = Some h -> _handle (self w') = Some h) ->
  _handle (self w1) = _handle (self w) \/
  _handle (self w1) = _handle (self w').
Proof.
  intros H1 H2. destruct (_handle (self w1)) as [x|] eqn:E1.
  - right. symmetry. auto.
  - left. destruct (_handle (self w)) as [y|] eqn:E; auto.
Qed.

Lemma comm_run_writes key retry w r w' :
  comm_run tr key retry w r w' ->
  truthy key = true ->
  exists evs, trace w' = trace w ++ evs /\
    writes_only (key_bytes key) w w' evs /\
    (r = Ret true -> ends_with_write (key_bytes key) w' evs).
Proof.
  intros R Hkey.
  induction R as [retry w u w1 E | retry w e w1 E C | w e w1 E C
                 | w e w1 r w' E C R IH].
  1-3: destruct (wp_elim (try_body_calls tr key w) E) as (evs & T & W & Rd);
    exists evs; split; [exact T|]; split;
    [ split;
      [ intros c h data resp o Hin;
        destruct (W c h data resp o Hin) as (_ & ? & ? & ?); auto
      | intros c h o Hin; destruct (Rd c h o Hin) as [?|[? _]];
        [auto | congruence] ]
    | try discriminate ].
  - intros _.
    destruct (wp_elim (try_body_ends tr key w) E) as (pre & c & _ & T').
    rewrite Hkey in T'. exists pre, c. cbn.
    rewrite T in T'. apply app_inv_head in T'. exact T'.
  - destruct (wp_elim (try_body_calls tr key w) E) as (evs1 & T1 & W1 & Rd1).
    destruct (wp_elim (try_body_frame tr key w) E) as (_ & _ & _ & _ & K1 & _).
    assert (K2 : forall h, _handle (self w1) = Some h ->
                           _handle (self w') = Some h).
    { intros h Hh. pose proof (_communicate_handle tr key false w1 Hh) as K.
      rewrite (comm_run_fun R) in K. exact K. }
    pose proof (handle_between w w1 w' K1 K2) as Hmid.
    destruct IH as (evs2 & T2 & [W2 Rd2] & End2).
    exists (evs1 ++ evs2). split; [rewrite T2, T1, app_assoc; reflexivity|].
    split; [split|].
    + intros c h data resp o Hin. apply in_app_or in Hin as [Hin|Hin].
      * destruct (W1 c h data resp o Hin) as (_ & ? & ? & ?).
        subst h. auto.
      * destruct (W2 c h data resp o Hin) as (? & ? & [?|?]); subst h; auto.
    + intros c h o Hin. apply in_app_or in Hin as [Hin|Hin]; eauto.
      destruct (Rd1 c h o Hin) as [?|[? _]]; [auto | congruence].
    + intros Hr. destruct (End2 Hr) as (pre & c & ->).
      exists (evs1 ++ pre), c. rewrite <- app_assoc. reflexivity.
Qed.

(** ** The state query *)

Lemma bytes_eqb_eq a b : bytes_eqb a b = true <-> a = b.
Proof.
  unfold bytes_eqb. destruct (bytes_eq_dec a b); split; congruence.
Qed.

Lemma comm_run_query key retry w r w' :
  comm_run tr key retry w r w' ->
  truthy key = false -> r = Ret true ->
  exists pre c p,
    trace w' = trace w ++ pre ++
      [EvAcquire; EvRead c (_handle (self w')) (Ret p); EvRelease] /\
    state (self w') =
      bytes_eqb p (if _flip_on_off (self w) then OFF_KEY else ON_KEY).
Proof.
  intros R Hkey.
  induction R as [retry w u w1 E | retry w e w1 E C | w e w1 E C
                 | w e w1 r w' E C R IH]; intros Hr; try discriminate.
  - destruct (wp_elim (try_body_ends tr key w) E) as (pre & c & _ & T).
    rewrite Hkey in T. destruct T as (p & T & S).
    exists pre, c, p. cbn. auto.
  - destruct (IH Hr) as (pre & c & p & T & S).
    destruct (wp_elim (try_body_counts tr key w) E) as (evs1 & T1 & _).
    destruct (wp_elim (try_body_frame tr key w) E) as (_ & _ & F & _).
    exists (evs1 ++ pre), c, p. split.
    + rewrite T, T1, <- !app_assoc. reflexivity.
    + rewrite S, F. reflexivity.
Qed.

Lemma _communicate_query key retry w :
  truthy key = false ->
  fst (_communicate tr key retry w) = Ret true ->
  exists pre c p,
    trace (snd (_communicate tr key retry w)) = trace w ++ pre ++
      [EvAcquire;
       EvRead c (_handle (self (snd (_communicate tr key retry w)))) (Ret p);
       EvRelease] /\
    (state (self (snd (_communicate tr key retry w))) = true <->
     p = if _flip_on_off (self w) then OFF_KEY else ON_KEY).
Proof.
  intros Hkey Hr.
  destruct (comm_run_query (_communicate_run tr key retry w) Hkey Hr)
    as (pre & c & p & T & S).
  exists pre, c, p. split; [exact T|].
  rewrite S. apply bytes_eqb_eq.
Qed.

(** C5.  A call without a key (or with [b""]) that returns [True] ended
    with a read of the stored handle, and [state] is true exactly when the
    payload of that read is [ON_KEY] with [_flip_on_off] false, [OFF_KEY]
    with it true; any other payload leaves [state] false. *)
Theorem state_query_sets_state key retry w :
  truthy key = false ->
  fst (_communicate tr key retry w) = Ret true ->
  exists pre c p,
    trace (snd (_communicate tr key retry w)) = trace w ++ pre ++
      [EvAcquire;
       EvRead c (_handle (self (snd (_communicate tr key retry w)))) (Ret p);
       EvRelease] /\
    (state (self (snd (_communicate tr key retry w))) = true <->
     p = if _flip_on_off (self w) then OFF_KEY else ON_KEY).
Proof. exact (_communicate_query key retry w). Qed.

(** [update] is such a call. *)
Lemma update_sets_state w :
  fst (update tr w) = Ret true ->
  exists pre c p,
    trace (snd (update tr w)) = trace w ++ pre ++
      [EvAcquire; EvRead c (_handle (self (snd (update tr w)))) (Ret p);
       EvRelease] /\
    (state (self (snd (update tr w))) = true <->
     p = if _flip_on_off (self w) then OFF_KEY else ON_KEY).
Proof. apply (_communicate_query None true w eq_refl). Qed.

(** ** Failures and the cached state *)

Lemma comm_run_failure key retry w r w' :
  comm_run tr key retry w r w' ->
  r = Ret false -> state (self w') = state (self w).
Proof.
  induction 1 as [retry w u w1 E | retry w e w1 E C | w e w1 E C
                 | w e w1 r w' E C R IH]; intros Hr; try discriminate.
  - destruct (wp_elim (try_body_frame tr key w) E) as (_ & _ & _ & _ & _ & _ & S).
    exact S.
  - destruct (wp_elim (try_body_frame tr key w) E) as (_ & _ & _ & _ & _ & _ & S).
    rewrite (IH Hr). exact S.
Qed.

(** C6.  A call of [_communicate] that returns [False] leaves [state] as
    it was at the call. *)
Theorem failed_communicate_keeps_state key retry w :
  fst (_communicate tr key retry w) = Ret false ->
  state (self (snd (_communicate tr key retry w))) = state (self w).
Proof.
  exact (comm_run_failure (_communicate_run tr key retry w)).
Qed.

(** ** The handle is kept *)

Lemma run_op_handle o w h :
  _handle (self w) = Some h ->
  _handle (self (snd (run_op tr o w))) = Some h.
Proof.
  intros Hh. destruct o; cbn [run_op]; unfold update, turn_on, turn_off;
    try (apply _communicate_handle; exact Hh).
  - pose proof (_connect_frame tr w) as F. unfold wp in F.
    destruct F as (_ & _ & _ & _ & _ & K). auto.
  - pose proof (_disconnect_self tr w) as F. unfold wp in F.
    destruct F as (S & _). rewrite S. exact Hh.
Qed.

(** C7.  Once [_handle] holds a value, it holds that value after any
    sequence of [_connect], [_disconnect], [_communicate], [update],
    [turn_on] and [turn_off], whatever the transport does in between. *)
Theorem handle_is_never_changed ops w h :
  _handle (self w) = Some h ->
  _handle (self (run_ops tr ops w)) = Some h.
Proof.
  revert w. unfold run_ops.
  induction ops as [|o ops IH]; intros w Hh; cbn [fold_left].
  - exact Hh.
  - apply IH. apply run_op_handle. exact Hh.
Qed.

(** ** Reconnecting *)

(** C8.  [_connect] on an object whose [_device] is a client [c] first
    runs [_disconnect] on [c] (the lock taken, [c.disconnect()] called, the
    lock left) and only then creates the next client and asks it to
    connect.  It goes on whether [disconnect] returned or raised one of the
    two caught classes; any other exception leaves [_connect] before a
    client is created. *)
Theorem connect_disconnects_first w c :
  _device (self w) = Some c ->
  exists o rest,
    trace (snd (_connect tr w)) =
      trace w ++ [EvAcquire; EvDisconnect c o; EvRelease] ++ rest /\
    match o with
    | Ret _ => opens_client w rest
    | Exc e => if caught e then opens_client w rest
               else rest = [] /\ fst (_connect tr w) = Exc e
    end.
Proof.
  intros Hc. exact (_connect_disconnects tr w Hc).
Qed.

(** ** Writes and the cached state *)

(** C10.  [turn_on] and [turn_off] leave [state] as it was, also when the
    write was answered and the call returns [True]: the write branch has no
    assignment to it, so what the entity reports as [is_on] is still the
    result of the last state query. *)
Theorem turn_on_off_keep_state w :
  state (self (snd (turn_on tr w))) = state (self w) /\
  state (self (snd (turn_off tr w))) = state (self w).
Proof.
  unfold turn_on, turn_off.
  split; apply _communicate_write_state;
    destruct (_flip_on_off (self w)); reflexivity.
Qed.

End Claims.

(** ** The identifier of the entity *)

Lemma replace_colon_filter s :
  list_ascii_of_string (Entity.replace ":" "" s) =
  filter (fun c => negb (Ascii.eqb c ":")) (list_ascii_of_string s).
Proof.
  induction s as [|c s IH]; cbn [Entity.replace list_ascii_of_string filter].
  - reflexivity.
  - destruct (Ascii.eqb c ":"); cbn [negb append list_ascii_of_string].
    + exact IH.
    + rewrite IH. reflexivity.
Qed.

(** C9.  [unique_id] is the address without its colons: the characters
    other than [":"], in their order.  It is a function of the address
    alone. *)
Theorem unique_id_strips_colons e :
  list_ascii_of_string (Entity.unique_id e) =
    filter (fun c => negb (Ascii.eqb c ":"))
           (list_ascii_of_string (Entity._mac e)) /\
  ~ In ":"%char (list_ascii_of_string (Entity.unique_id e)) /\
  forall name dev,
    Entity.unique_id
      {| Entity._mac := Entity._mac e; Entity._name := name;
         Entity._device := dev |} = Entity.unique_id e.
Proof.
  unfold Entity.unique_id. split; [apply replace_colon_filter|].
  split; [|reflexivity].
  rewrite replace_colon_filter. intros Hin.
  apply filter_In in Hin as [_ Hin]. discriminate.
Qed.

(** * Runs on the sample peripherals *)

(** A new object on the steady link: [turn_on] probes, finds the "Bright"
    model and writes [0x01] to handle 47; with the polarity flipped it
    writes [0x00]. *)
Example turn_on_steady :
  turn_on steady (new0 false) =
  (Ret true,
   {| self := {| _mac := mac0; state := false; _device := Some 0%nat;
                 available := true; _flip_on_off := false;
                 _handle := Some 47 |};
      trace := [EvNew 0 mac0; EvAcquire; EvConnect 0 (Ret tt);
                EvRead 0 (Some 21) (Ret Bright); EvRelease;
                EvAcquire; EvWrite 0 (Some 47) [x01] true (Ret tt);
                EvRelease];
      clients := 1; attempts := 1 |}).
Proof. reflexivity. Qed.

Example turn_on_flipped :
  new_events (new0 true) (snd (turn_on plain (new0 true))) =
  [EvNew 0 mac0; EvAcquire; EvConnect 0 (Ret tt);
   EvRead 0 (Some 21) (Ret []); EvRelease;
   EvAcquire; EvWrite 0 (Some 45) [x00] true (Ret tt); EvRelease].
Proof. reflexivity. Qed.

(** The first write times out, the second is answered. *)
Example turn_on_flaky :
  fst (turn_on flaky (new0 false)) = Ret true /\
  available (self (snd (turn_on flaky (new0 false)))) = true /\
  attempts (snd (turn_on flaky (new0 false))) = 2%nat /\
  new_events (new0 false) (snd (turn_on flaky (new0 false))) =
  [EvNew 0 mac0; EvAcquire; EvConnect 0 (Ret tt);
   EvRead 0 (Some 21) (Ret Bright); EvRelease;
   EvAcquire; EvWrite 0 (Some 47) [x01] true (Exc TimeoutError); EvRelease;
   EvAcquire; EvWrite 0 (Some 47) [x01] true (Ret tt); EvRelease].
Proof. repeat split. Qed.

(** Both attempts fail. *)
Example update_down :
  fst (update (down BleakError) synced0) = Ret false /\
  available (self synced0) = true /\
  available (self (snd (update (down BleakError) synced0))) = false /\
  state (self (snd (update (down BleakError) synced0))) = true.
Proof. repeat split. Qed.

(** An answered write does not touch [state]: the entity of a new object
    still reports off after [turn_on] returned [True]. *)
Example is_on_after_turn_on :
  fst (turn_on steady (new0 false)) = Ret true /\
  Entity.is_on
    {| Entity._mac := mac0; Entity._name := "Switchmate";
       Entity._device := self (snd (turn_on steady (new0 false))) |} = false.
Proof. split; reflexivity. Qed.

Example unique_id_mac0 :
  Entity.unique_id (Entity.init mac0 "Switchmate" false) = "AABBCCDDEEFF"%string.
Proof. reflexivity. Qed.

(** The probe read that raises leaves the handle unknown while the link is
    up, and the retry then writes to the handle [None]. *)
Example write_to_unknown_handle :
  new_events (new0 false)
    (snd (turn_on (scripted [None; Some BleakError] Bright ON_KEY)
                  (new0 false))) =
  [EvNew 0 mac0; EvAcquire; EvConnect 0 (Ret tt);
   EvRead 0 (Some 21) (Exc BleakError); EvRelease;
   EvAcquire; EvWrite 0 None [x01] true (Ret tt); EvRelease].
Proof. reflexivity. Qed.

(** ** Instances *)

Lemma communicate_reports_outcome_witness :
  attempts_end flaky (Some ON_KEY) true (new0 false) true /\
  fst (_communicate flaky (Some ON_KEY) true (new0 false)) = Ret true /\
  available (self (snd (_communicate flaky (Some ON_KEY) true (new0 false))))
    = true.
Proof.
  assert (H : attempts_end flaky (Some ON_KEY) true (new0 false) true).
  { eapply attempt_fails_retry with (e := TimeoutError).
    - vm_compute. reflexivity.
    - reflexivity.
    - eapply attempt_succeeds with (u := tt). vm_compute. reflexivity. }
  split; [exact H|].
  exact (@communicate_reports_outcome flaky (Some ON_KEY) true (new0 false)
           true H).
Defined.

Lemma connect_probe_sets_handle_witness :
  exists r,
    In (EvRead 0 (Some 21) r)
       [EvNew 0 mac0; EvAcquire; EvConnect 0 (Ret tt);
        EvRead 0 (Some 21) (Ret Bright); EvRelease] /\
    _handle (self (snd (_connect steady (new0 false)))) =
      match r with
      | Ret p => Some (if bytes_eq_dec p Bright then 47 else 45)
      | Exc _ => None
      end.
Proof.
  apply (@connect_probe_sets_handle steady (new0 false)
           [EvNew 0 mac0; EvAcquire; EvConnect 0 (Ret tt);
            EvRead 0 (Some 21) (Ret Bright); EvRelease]).
  - reflexivity.
  - vm_compute. reflexivity.
  - simpl. auto.
Defined.

Lemma state_query_sets_state_witness :
  exists pre c p,
    trace (snd (_communicate steady None true (new0 false))) =
      trace (new0 false) ++ pre ++
      [EvAcquire;
       EvRead c
         (_handle (self (snd (_communicate steady None true (new0 false)))))
         (Ret p);
       EvRelease] /\
    (state (self (snd (_communicate steady None true (new0 false)))) = true
     <-> p = if _flip_on_off (self (new0 false)) then OFF_KEY else ON_KEY).
Proof.
  apply (@state_query_sets_state steady None true (new0 false)).
  - reflexivity.
  - vm_compute. reflexivity.
Defined.

Lemma failed_communicate_keeps_state_witness :
  fst (_communicate (down TimeoutError) None true synced0) = Ret false /\
  state (self (snd (_communicate (down TimeoutError) None true synced0))) =
  state (self synced0).
Proof.
  assert (H : fst (_communicate (down TimeoutError) None true synced0)
              = Ret false) by (vm_compute; reflexivity).
  split; [exact H|].
  exact (@failed_communicate_keeps_state (down TimeoutError) None true
           synced0 H).
Defined.

Lemma handle_is_never_changed_witness :
  _handle (self synced0) = Some 47 /\
  _handle
    (self (run_ops plain
             [OpTurnOn; OpDisconnect; OpConnect; OpUpdate; OpTurnOff]
             synced0)) = Some 47.
Proof.
  assert (H : _handle (self synced0) = Some 47) by (vm_compute; reflexivity).
  split; [exact H|].
  exact (@handle_is_never_changed plain
           [OpTurnOn; OpDisconnect; OpConnect; OpUpdate; OpTurnOff]
           synced0 47 H).
Defined.

Lemma connect_disconnects_first_witness :
  _device (self synced0) = Some 0%nat /\
  exists o rest,
    trace (snd (_connect plain synced0)) =
      trace synced0 ++ [EvAcquire; EvDisconnect 0 o; EvRelease] ++ rest /\
    match o with
    | Ret _ => opens_client synced0 rest
    | Exc e => if caught e then opens_client synced0 rest
               else rest = [] /\ fst (_connect plain synced0) = Exc e
    end.
Proof.
  assert (H : _device (self synced0) = Some 0%nat)
    by (vm_compute; reflexivity).
  split; [exact H|].
  exact (@connect_disconnects_first plain synced0 0%nat H).
Defined.

(** * Further properties *)

(** ** Calls of a whole run, from those of its parts *)

(** A property of lists of calls that holds of one run of the [try] body
    and of concatenations holds of every call of [_communicate]. *)
Lemma _communicate_events tr key (P : list Event -> Prop) :
  (forall a b, P a -> P b -> P (a ++ b)) ->
  (forall w, wp (try_body tr key) (fun _ w' =>
     exists evs, trace w' = trace w ++ evs /\ P evs) w) ->
  forall retry w, exists evs,
    trace (snd (_communicate tr key retry w)) = trace w ++ evs /\ P evs.
Proof.
  intros Happ Hbody.
  apply (_communicate_rel tr key
           (fun w w' => exists evs, trace w' = trace w ++ evs /\ P evs)).
  - exact Hbody.
  - intros w1 w2 w3 (a & Ta & Pa) (b & Tb & Pb). exists (a ++ b).
    split; [rewrite Tb, Ta, app_assoc; reflexivity | auto].
  - intros w w' b H. exact H.
Qed.

(** The same for a session, along an invariant of the worlds. *)
Lemma run_ops_events tr (I : World -> Prop) (P : list Event -> Prop) :
  P [] ->
  (forall a b, P a -> P b -> P (a ++ b)) ->
  (forall o w, I w ->
     I (snd (run_op tr o w)) /\
     exists evs, trace (snd (run_op tr o w)) = trace w ++ evs /\ P evs) ->
  forall ops w, I w ->
    I (run_ops tr ops w) /\
    exists evs, trace (run_ops tr ops w) = trace w ++ evs /\ P evs.
Proof.
  intros Hnil Happ Hop. unfold run_ops.
  induction ops as [|o ops IH]; intros w Hw; cbn [fold_left].
  - split; [exact Hw|]. exists []. rewrite app_nil_r. auto.
  - destruct (Hop o w Hw) as (Hw1 & a & Ta & Pa).
    destruct (IH _ Hw1) as (Hw2 & b & Tb & Pb).
    split; [exact Hw2|]. exists (a ++ b).
    split; [rewrite Tb, Ta, app_assoc; reflexivity | auto].
Qed.

Lemma lock_scan_app evs1 evs2 a b :
  lock_scan a evs1 = Some b -> lock_scan a (evs1 ++ evs2) = lock_scan b evs2.
Proof.
  revert a. induction evs1 as [|e evs1 IH]; intros a H; cbn in *.
  - congruence.
  - destruct e, a; try discriminate; auto.
Qed.

Lemma paired_app a b : paired a -> paired b -> paired (a ++ b).
Proof.
  induction 1; intros Hb; cbn [app]; auto using paired.
Qed.

Lemma raised_not_returned ev e : raised ev = Some e -> returned ev = false.
Proof.
  destruct ev as [| | | ? [|] | ? [|] | ? ? [|] | ? ? ? ? [|]];
    cbn; congruence.
Qed.

(** A list that is written out is [paired]. *)
Ltac pairs :=
  repeat first
    [ apply paired_nil
    | apply paired_new
    | apply paired_other; [reflexivity | reflexivity |] ].

Section Parts.

Variable tr : Transport.

(** ** More on the parts *)

Lemma _disconnect_locks w :
  wp (_disconnect tr) (fun _ w' => exists evs,
    trace w' = trace w ++ evs /\
    lock_scan false evs = Some false /\ paired evs) w.
Proof.
  wp_run; eexists; (split; [new_trace|]); (split; [reflexivity | pairs]).
Qed.

Lemma _connect_locks w :
  wp (_connect tr) (fun _ w' => exists evs,
    trace w' = trace w ++ evs /\
    lock_scan false evs = Some false /\ paired evs) w.
Proof.
  wp_run; eexists; (split; [new_trace|]); (split; [reflexivity | pairs]).
Qed.

Lemma try_body_locks key w :
  wp (try_body tr key) (fun _ w' => exists evs,
    trace w' = trace w ++ evs /\
    lock_scan false evs = Some false /\ paired evs) w.
Proof.
  wp_run; eexists; (split; [new_trace|]); (split; [reflexivity | pairs]).
Qed.

(** An exception that no [except] clause names was raised by the last call
    to the transport. *)
Lemma try_body_escape key w :
  wp (try_body tr key) (fun r w' =>
    match r with
    | Ret _ => True
    | Exc e =>
        caught e = false ->
        exists pre ev,
          trace w' = trace w ++ pre ++ [ev; EvRelease] /\ raised ev = Some e
    end) w.
Proof.
  wp_run; units;
    try match goal with
        | |- match ?r with _ => _ end => wp_case r
        end;
    auto; try discriminate.
  all: intros _; do 2 eexists; split; [suffix2 | reflexivity].
Qed.

(** [_handle] changes only from [None], and only to 45 or 47. *)
Lemma _connect_handle_step w :
  wp (_connect tr) (fun _ w' =>
    _handle (self w') = _handle (self w) \/
    _handle (self w) = None /\
    (_handle (self w') = Some 45 \/ _handle (self w') = Some 47)) w.
Proof.
  wp_run; auto; right; (split; [auto|]); destruct (bytes_eqb _ _); auto.
Qed.

Lemma try_body_handle_step key w :
  wp (try_body tr key) (fun _ w' =>
    _handle (self w') = _handle (self w) \/
    _handle (self w) = None /\
    (_handle (self w') = Some 45 \/ _handle (self w') = Some 47)) w.
Proof.
  wp_run; auto; right; (split; [auto|]); destruct (bytes_eqb _ _); auto.
Qed.

(** With [_handle] known, reads and writes go to it. *)
Lemma _connect_known w h :
  _handle (self w) = Some h ->
  wp (_connect tr) (fun _ w' => exists evs,
    trace w' = trace w ++ evs /\ Forall (on_handle h) evs) w.
Proof.
  intros Hh.
  wp_run; eexists; (split; [new_trace|]); repeat constructor; auto.
Qed.

Lemma try_body_known key w h :
  _handle (self w) = Some h ->
  wp (try_body tr key) (fun _ w' => exists evs,
    trace w' = trace w ++ evs /\ Forall (on_handle h) evs) w.
Proof.
  intros Hh.
  wp_run; eexists; (split; [new_trace|]); repeat constructor; auto.
Qed.

(** Without a key, nothing is written. *)
Lemma try_body_query key w :
  truthy key = false ->
  wp (try_body tr key) (fun _ w' => exists evs,
    trace w' = trace w ++ evs /\ count is_write evs = 0%nat) w.
Proof.
  intros Hkey. wp_run; eexists; (split; [new_trace | reflexivity]).
Qed.

(** On a polite transport the body raises what the handler catches. *)
Lemma try_body_polite key w :
  polite tr ->
  wp (try_body tr key) (fun r _ =>
    match r with
    | Ret _ => True
    | Exc e => caught e = true
    end) w.
Proof.
  intros (Pc & Pd & Pr & Pw).
  wp_run; auto;
    repeat match goal with
           | H : on_connect _ _ _ = Exc _ |- _ => apply Pc in H
           | H : on_disconnect _ _ _ = Exc _ |- _ => apply Pd in H
           | H : on_read _ _ _ _ = Exc _ |- _ => apply Pr in H
           | H : on_write _ _ _ _ _ _ = Exc _ |- _ => apply Pw in H
           end;
    congruence.
Qed.

Lemma _connect_polite w :
  polite tr ->
  wp (_connect tr) (fun r _ =>
    match r with
    | Ret _ => True
    | Exc e => False
    end) w.
Proof.
  intros (Pc & Pd & Pr & Pw).
  wp_run; auto;
    repeat match goal with
           | H : on_connect _ _ _ = Exc _ |- _ => apply Pc in H
           | H : on_disconnect _ _ _ = Exc _ |- _ => apply Pd in H
           | H : on_read _ _ _ _ = Exc _ |- _ => apply Pr in H
           end;
    congruence.
Qed.

(** How a run of the body starts, by the state of the link. *)
Lemma try_body_starts key w :
  wp (try_body tr key) (fun r w' => exists evs,
    trace w' = trace w ++ evs /\
    match _device (self w) with
    | None =>
        exists o rest,
          evs = EvNew (clients w) (_mac (self w)) :: EvAcquire ::
                EvConnect (clients w) o :: rest
    | Some c =>
        if on_is_connected tr (trace w) c then
          exists io,
            evs = [EvAcquire; io; EvRelease] /\
            transfer key c (_handle (self w)) io /\
            match r with
            | Ret _ => returned io = true
            | Exc e => raised io = Some e
            end
        else
          exists o rest,
            evs = EvAcquire :: EvDisconnect c o :: EvRelease :: rest
    end) w.
Proof.
  unfold transfer.
  destruct (_device (self w)) as [c|] eqn:Hd;
    [destruct (on_is_connected tr (trace w) c) eqn:Hup|].
  all: wp_run; try (rewrite Hup in *; discriminate).
  all: eexists; (split; [new_trace|]); eauto 6.
  eexists; split; [reflexivity|]; split; [eauto|].
  match goal with
  | |- match ?r with _ => _ end => destruct r
  end; reflexivity.
Qed.

End Parts.

Section Extras.

Variable tr : Transport.

(** ** The lock *)

Lemma run_op_locks o w :
  exists evs, trace (snd (run_op tr o w)) = trace w ++ evs /\
    (lock_scan false evs = Some false /\ paired evs).
Proof.
  assert (Happ : forall a b,
    lock_scan false a = Some false /\ paired a ->
    lock_scan false b = Some false /\ paired b ->
    lock_scan false (a ++ b) = Some false /\ paired (a ++ b)).
  { intros a b [La Pa] [Lb Pb]. split.
    - rewrite (@lock_scan_app a b false false La). exact Lb.
    - apply paired_app; assumption. }
  destruct o; cbn [run_op]; unfold update, turn_on, turn_off;
    try (apply _communicate_events; [exact Happ|];
         intros w0; apply try_body_locks).
  - exact (_connect_locks tr w).
  - exact (_disconnect_locks tr w).
Qed.

(** Over any session, on any transport: the lock is never asked for while
    held, every call to the transport is made under it, and it is free
    again when each method is left, by [return] or by an exception. *)
Theorem lock_is_taken_and_left ops w :
  exists evs, trace (run_ops tr ops w) = trace w ++ evs /\
    lock_scan false evs = Some false.
Proof.
  apply (run_ops_events tr (fun _ => True)
           (fun evs => lock_scan false evs = Some false)); auto.
  - intros a b La Lb. rewrite (@lock_scan_app a b false false La). exact Lb.
  - intros o w0 _. split; [exact I|].
    destruct (run_op_locks o w0) as (evs & T & L & _). eauto.
Qed.

(** Over any session: each client is created only to be asked to connect at
    once, and [connect] is called on a client just created and on no other;
    a client whose link is lost is never connected again. *)
Theorem clients_connect_once ops w :
  exists evs, trace (run_ops tr ops w) = trace w ++ evs /\ paired evs.
Proof.
  apply (run_ops_events tr (fun _ => True) paired); auto using paired.
  - apply paired_app.
  - intros o w0 _. split; [exact I|].
    destruct (run_op_locks o w0) as (evs & T & _ & P). eauto.
Qed.

(** ** Exceptions *)

Lemma comm_run_escape key retry w r w' :
  comm_run tr key retry w r w' ->
  forall e, r = Exc e ->
  caught e = false /\
  exists pre ev,
    trace w' = trace w ++ pre ++ [ev; EvRelease] /\ raised ev = Some e.
Proof.
  induction 1 as [retry w u w1 E | retry w e0 w1 E C | w e0 w1 E C
                 | w e0 w1 r w' E C R IH]; intros e Hr; try discriminate.
  - inversion Hr; subst. split; [exact C|].
    apply (wp_elim (try_body_escape tr key w) E C).
  - destruct (IH e Hr) as (Ce & pre & ev & T & Rv). split; [exact Ce|].
    destruct (wp_elim (try_body_counts tr key w) E) as (evs1 & T1 & _).
    exists (evs1 ++ pre), ev. split; [|exact Rv].
    rewrite T, T1, <- !app_assoc. reflexivity.
Qed.

(** An exception leaves [_communicate] only when the last call to the
    transport raised it and it is of neither caught class: the
    [BleakError] the method raises itself and the [AttributeError] of a
    missing client never reach the caller. *)
Theorem escaping_exception_is_the_transports key retry w e :
  fst (_communicate tr key retry w) = Exc e ->
  caught e = false /\
  exists pre ev,
    trace (snd (_communicate tr key retry w)) =
      trace w ++ pre ++ [ev; EvRelease] /\
    raised ev = Some e.
Proof.
  apply (comm_run_escape (_communicate_run tr key retry w)).
Qed.

Lemma comm_run_stale key retry w r w' :
  comm_run tr key retry w r w' ->
  forall e, r = Exc e ->
  available (self w') = available (self w) /\
  state (self w') = state (self w).
Proof.
  induction 1 as [retry w u w1 E | retry w e0 w1 E C | w e0 w1 E C
                 | w e0 w1 r w' E C R IH]; intros e Hr; try discriminate.
  - destruct (wp_elim (try_body_frame tr key w) E)
      as (_ & _ & _ & A & _ & _ & S). auto.
  - destruct (wp_elim (try_body_frame tr key w) E)
      as (_ & _ & _ & A & _ & _ & S).
    destruct (IH e Hr) as [A' S']. split; congruence.
Qed.

(** When an exception leaves [_communicate], [available] and [state] are
    what they were at the call: an object that was available still says
    so. *)
Theorem escaping_exception_keeps_flags key retry w e :
  fst (_communicate tr key retry w) = Exc e ->
  available (self (snd (_communicate tr key retry w))) = available (self w) /\
  state (self (snd (_communicate tr key retry w))) = state (self w).
Proof.
  apply (comm_run_stale (_communicate_run tr key retry w)).
Qed.

Lemma _communicate_polite key retry w :
  polite tr -> exists b, fst (_communicate tr key retry w) = Ret b.
Proof.
  intros Hp.
  pose proof (_communicate_run tr key retry w) as R.
  induction R as [retry w u w1 E | retry w e0 w1 E C | w e0 w1 E C
                 | w e0 w1 r w' E C R IH]; cbn [fst]; eauto.
  pose proof (wp_elim (@try_body_polite tr key w Hp) E) as H.
  cbn in H. congruence.
Qed.

(** On a transport that raises only [BleakError] and timeouts, [_connect]
    and [_communicate] always return a boolean, and the three methods of
    the entity always return [None]: no exception reaches the caller. *)
Theorem polite_transport_never_raises w :
  polite tr ->
  (exists b, fst (_connect tr w) = Ret b) /\
  (forall key retry, exists b, fst (_communicate tr key retry w) = Ret b) /\
  fst (async_update tr w) = Ret tt /\
  fst (async_turn_on tr w) = Ret tt /\
  fst (async_turn_off tr w) = Ret tt.
Proof.
  intros Hp. split; [|split].
  - pose proof (@_connect_polite tr w Hp) as H. unfold wp in H.
    destruct (fst (_connect tr w)); [eauto | contradiction].
  - intros key retry. apply _communicate_polite. exact Hp.
  - unfold async_update, async_turn_on, async_turn_off, update, turn_on,
      turn_off, bind, ret.
    repeat split;
      match goal with
      | |- context [_communicate tr ?k true w] =>
          destruct (_communicate_polite k true w Hp) as (b & Hb);
          destruct (_communicate tr k true w) as [r w1];
          cbn in Hb; subst r; reflexivity
      end.
Qed.

(** [_disconnect] on an object that has no client yet raises
    [AttributeError], which its [except] clause does not catch; the lock was
    taken and is left, nothing was asked of the transport and no field
    changed. *)
Theorem disconnect_without_client w :
  _device (self w) = None ->
  fst (_disconnect tr w) = Exc AttributeError /\
  trace (snd (_disconnect tr w)) = trace w ++ [EvAcquire; EvRelease] /\
  self (snd (_disconnect tr w)) = self w.
Proof.
  intros Hd.
  assert (H : wp (_disconnect tr) (fun r w' =>
    r = Exc AttributeError /\
    trace w' = trace w ++ [EvAcquire; EvRelease] /\
    self w' = self w) w).
  { wp_run; try (cbn in *; discriminate). repeat split. new_trace. }
  exact H.
Qed.

(** ** The key *)

(** The empty key [b""] is a false value: [_communicate(b"")] is the state
    query of [_communicate(None)], in outcome and in every call made, and
    it writes nothing. *)
Theorem empty_key_is_a_query retry w :
  _communicate tr (Some []) retry w = _communicate tr None retry w /\
  exists evs,
    trace (snd (_communicate tr (Some []) retry w)) = trace w ++ evs /\
    count is_write evs = 0%nat.
Proof.
  split.
  - assert (Hlast : forall w0, _communicate tr (Some []) false w0 =
                               _communicate tr None false w0).
    { intros w0. rewrite (_communicate_eq tr (Some [])).
      rewrite (_communicate_eq tr None).
      change (try_body tr (Some []) w0) with (try_body tr None w0).
      reflexivity. }
    destruct retry; [|apply Hlast].
    rewrite (_communicate_eq tr (Some [])). rewrite (_communicate_eq tr None).
    change (try_body tr (Some []) w) with (try_body tr None w).
    destruct (try_body tr None w) as [[u|e] w1]; [reflexivity|].
    destruct (caught e); [apply Hlast | reflexivity].
  - apply (@_communicate_events tr (Some [])
             (fun evs => count is_write evs = 0%nat)).
    + intros a b Ha Hb. rewrite count_app, Ha, Hb. reflexivity.
    + intros w0. apply try_body_query. reflexivity.
Qed.

(** ** How a call starts *)

Lemma _communicate_extends key retry w :
  exists evs, trace (snd (_communicate tr key retry w)) = trace w ++ evs.
Proof.
  destruct (comm_run_counts (_communicate_run tr key retry w))
    as (evs & T & _).
  eauto.
Qed.

(** What [_communicate] does first.  With no client yet, it creates one and
    asks it to connect.  With a client whose link is down, it first
    disconnects that client.  With a client whose link is up, it goes
    straight to the one transfer, on that client and the stored handle,
    without a [connect] or a probe; the call then makes no other call if
    that transfer returned or if [retry] is false. *)
Theorem communicate_start key retry w :
  exists evs,
    trace (snd (_communicate tr key retry w)) = trace w ++ evs /\
    match _device (self w) with
    | None =>
        exists o rest,
          evs = EvNew (clients w) (_mac (self w)) :: EvAcquire ::
                EvConnect (clients w) o :: rest
    | Some c =>
        if on_is_connected tr (trace w) c then
          exists io rest,
            evs = EvAcquire :: io :: EvRelease :: rest /\
            transfer key c (_handle (self w)) io /\
            (retry = false \/ returned io = true -> rest = [])
        else
          exists o rest,
            evs = EvAcquire :: EvDisconnect c o :: EvRelease :: rest
    end.
Proof.
  pose proof (try_body_starts tr key w) as B. unfold wp in B.
  rewrite _communicate_eq.
  destruct (try_body tr key w) as [r1 w1]. cbn [fst snd] in B.
  destruct B as (evs1 & T1 & S1).
  assert (Hone : exists evs,
    trace w1 = trace w ++ evs /\
    match _device (self w) with
    | None =>
        exists o rest,
          evs = EvNew (clients w) (_mac (self w)) :: EvAcquire ::
                EvConnect (clients w) o :: rest
    | Some c =>
        if on_is_connected tr (trace w) c then
          exists io rest,
            evs = EvAcquire :: io :: EvRelease :: rest /\
            transfer key c (_handle (self w)) io /\
            (retry = false \/ returned io = true -> rest = [])
        else
          exists o rest,
            evs = EvAcquire :: EvDisconnect c o :: EvRelease :: rest
    end).
  { exists evs1. split; [exact T1|].
    destruct (_device (self w)) as [c|]; [|exact S1].
    destruct (on_is_connected tr (trace w) c); [|exact S1].
    destruct S1 as (io & -> & Tr & _). exists io, []. auto. }
  destruct r1 as [u|e]; [exact Hone|].
  destruct (caught e) eqn:C; [|exact Hone].
  destruct retry; [|exact Hone].
  destruct (_communicate_extends key false w1) as (evs2 & T2).
  exists (evs1 ++ evs2). split; [rewrite T2, T1, app_assoc; reflexivity|].
  destruct (_device (self w)) as [c|].
  - destruct (on_is_connected tr (trace w) c).
    + destruct S1 as (io & -> & Tr & Rv). exists io, evs2.
      split; [reflexivity|]. split; [exact Tr|].
      intros [?|Hret]; [discriminate|].
      rewrite (raised_not_returned _ Rv) in Hret. discriminate.
    + destruct S1 as (o & rest & ->). exists o, (rest ++ evs2). reflexivity.
  - destruct S1 as (o & rest & ->). exists o, (rest ++ evs2). reflexivity.
Qed.

(** ** What [_connect] returns *)

Lemma _connect_outcome w :
  wp (_connect tr) (fun r w' => exists evs,
    trace w' = trace w ++ evs /\
    match r with
    | Ret true =>
        _device (self w') = Some (clients w) /\
        In (EvConnect (clients w) (Ret tt)) evs /\
        exists h, _handle (self w') = Some h
    | Ret false =>
        _device (self w') = Some (clients w) /\
        _handle (self w') = _handle (self w) /\
        exists e, caught e = true /\
          (In (EvConnect (clients w) (Exc e)) evs \/
           In (EvRead (clients w) (Some 21) (Exc e)) evs)
    | Exc e => caught e = false
    end) w.
Proof.
  wp_run; units; eexists; (split; [new_trace|]); auto.
  all: split; [reflexivity|]; split;
    first [ cbn [In]; now auto 10
          | eexists; reflexivity
          | eassumption
          | reflexivity
          | idtac ].
  all: try (eexists; eassumption).
  all: try (eexists; split; [eassumption|]; cbn [In]; now auto 10).
Qed.

(** [_connect] returns [True] only with the new client in [_device], its
    [connect] returned and [_handle] known.  It returns [False] when that
    [connect] or the probe raised a caught exception; the client that
    failed stays in [_device] and [_handle] is as before.  It raises only
    what no [except] clause names. *)
Theorem connect_outcome w :
  exists evs,
    trace (snd (_connect tr w)) = trace w ++ evs /\
    match fst (_connect tr w) with
    | Ret true =>
        _device (self (snd (_connect tr w))) = Some (clients w) /\
        In (EvConnect (clients w) (Ret tt)) evs /\
        exists h, _handle (self (snd (_connect tr w))) = Some h
    | Ret false =>
        _device (self (snd (_connect tr w))) = Some (clients w) /\
        _handle (self (snd (_connect tr w))) = _handle (self w) /\
        exists e, caught e = true /\
          (In (EvConnect (clients w) (Exc e)) evs \/
           In (EvRead (clients w) (Some 21) (Exc e)) evs)
    | Exc e => caught e = false
    end.
Proof. exact (_connect_outcome w). Qed.

(** ** The handle over a session *)

Lemma handle_step_refl w : handle_step w w.
Proof. left. reflexivity. Qed.

Lemma handle_step_trans w1 w2 w3 :
  handle_step w1 w2 -> handle_step w2 w3 -> handle_step w1 w3.
Proof.
  unfold handle_step.
  intros [E1|(N1 & V1)] [E2|(N2 & V2)].
  - left. congruence.
  - right. split; [congruence | exact V2].
  - right. split; [exact N1 | rewrite E2; exact V1].
  - destruct V1; congruence.
Qed.

Lemma run_op_handle_step o w : handle_step w (snd (run_op tr o w)).
Proof.
  destruct o; cbn [run_op]; unfold update, turn_on, turn_off;
    try (apply (_communicate_rel tr _ handle_step);
         [ intros w0; apply try_body_handle_step
         | apply handle_step_trans
         | intros w0 w' b H; exact H ]).
  - exact (_connect_handle_step tr w).
  - pose proof (_disconnect_self tr w) as F. unfold wp in F.
    destruct F as (S & _). left. rewrite S. reflexivity.
Qed.

(** Over any session, on any transport, [_handle] either keeps its value or
    goes from unknown to 45 or to 47. *)
Theorem handle_is_45_or_47 ops w :
  handle_step w (run_ops tr ops w).
Proof.
  revert w. unfold run_ops.
  induction ops as [|o ops IH]; intros w; cbn [fold_left].
  - apply handle_step_refl.
  - eapply handle_step_trans; [apply run_op_handle_step | apply IH].
Qed.

Lemma _disconnect_known w h :
  wp (_disconnect tr) (fun _ w' => exists evs,
    trace w' = trace w ++ evs /\ Forall (on_handle h) evs) w.
Proof.
  wp_run; eexists; (split; [new_trace|]); repeat constructor.
Qed.

Lemma _communicate_known key retry w h :
  _handle (self w) = Some h ->
  _handle (self (snd (_communicate tr key retry w))) = Some h /\
  exists evs,
    trace (snd (_communicate tr key retry w)) = trace w ++ evs /\
    Forall (on_handle h) evs.
Proof.
  apply (_communicate_rel tr key
           (fun w w' => _handle (self w) = Some h ->
              _handle (self w') = Some h /\
              exists evs, trace w' = trace w ++ evs /\
                          Forall (on_handle h) evs)).
  - intros w0. unfold wp. intros Hh. split.
    + pose proof (try_body_frame tr key w0) as F. unfold wp in F.
      destruct F as (_ & _ & _ & _ & K & _). auto.
    + exact (try_body_known tr key w0 Hh).
  - intros w1 w2 w3 H12 H23 Hh.
    destruct (H12 Hh) as (Hh2 & a & Ta & Fa).
    destruct (H23 Hh2) as (Hh3 & b & Tb & Fb).
    split; [exact Hh3|].
    exists (a ++ b). split; [rewrite Tb, Ta, app_assoc; reflexivity|].
    apply Forall_app; auto.
  - intros w0 w' b H. exact H.
Qed.

(** Once [_handle] holds a value, every read and every write of the
    session goes to that handle, whatever is reconnected in between: the
    model of the device is not probed again. *)
Theorem known_handle_is_the_only_target ops w h :
  _handle (self w) = Some h ->
  exists evs,
    trace (run_ops tr ops w) = trace w ++ evs /\ Forall (on_handle h) evs.
Proof.
  intros Hh.
  apply (run_ops_events tr (fun w0 => _handle (self w0) = Some h)
           (Forall (on_handle h))); auto.
  - intros a b Fa Fb. apply Forall_app; auto.
  - intros o w0 Hh0. split; [apply run_op_handle; exact Hh0|].
    destruct o; cbn [run_op]; unfold update, turn_on, turn_off;
      try (apply _communicate_known; exact Hh0).
    + exact (_connect_known tr w0 Hh0).
    + exact (_disconnect_known w0 h).
Qed.

(** ** Fields that never change *)

Lemma run_op_fixed o w :
  _mac (self (snd (run_op tr o w))) = _mac (self w) /\
  _flip_on_off (self (snd (run_op tr o w))) = _flip_on_off (self w).
Proof.
  destruct o; cbn [run_op]; unfold update, turn_on, turn_off;
    try (apply (_communicate_rel tr _
                  (fun w w' => _mac (self w') = _mac (self w) /\
                     _flip_on_off (self w') = _flip_on_off (self w)));
         [ intros w0; eapply wp_mono; [apply try_body_frame|];
           cbv beta; tauto
         | intros w1 w2 w3 [? ?] [? ?]; split; congruence
         | intros w0 w' b H; exact H ]).
  - pose proof (_connect_frame tr w) as F. unfold wp in F. tauto.
  - pose proof (_disconnect_self tr w) as F. unfold wp in F.
    destruct F as (S & _). rewrite S. auto.
Qed.

(** The address and the polarity given to the constructor are the ones of
    the object after any session. *)
Theorem address_and_polarity_are_fixed ops w :
  _mac (self (run_ops tr ops w)) = _mac (self w) /\
  _flip_on_off (self (run_ops tr ops w)) = _flip_on_off (self w).
Proof.
  revert w. unfold run_ops.
  induction ops as [|o ops IH]; intros w; cbn [fold_left]; auto.
  destruct (IH (snd (run_op tr o w))) as [M F].
  destruct (run_op_fixed o w) as [M0 F0]. split; congruence.
Qed.

(** ** The result and the last call *)

Lemma try_body_fails key w :
  wp (try_body tr key) (fun r w' =>
    match r with
    | Ret _ => True
    | Exc e =>
        caught e = true ->
        exists pre ev e',
          trace w' = trace w ++ pre ++ [ev; EvRelease] /\
          raised ev = Some e' /\ caught e' = true
    end) w.
Proof.
  wp_run; units;
    try match goal with
        | |- match ?r with _ => _ end => wp_case r
        end;
    auto; try discriminate.
  all: intros C; do 3 eexists; split; [suffix2 | split; [reflexivity|]].
  all: first [eassumption | reflexivity].
Qed.

Lemma comm_run_verdict key retry w r w' :
  comm_run tr key retry w r w' ->
  forall b, r = Ret b ->
  exists pre ev,
    trace w' = trace w ++ pre ++ [ev; EvRelease] /\
    if b then returned ev = true
    else exists e, raised ev = Some e /\ caught e = true.
Proof.
  induction 1 as [retry w u w1 E | retry w e w1 E C | w e w1 E C
                 | w e w1 r w' E C R IH]; intros b Hb.
  - inversion Hb; subst.
    destruct (comm_run_last_call (@run_done tr key retry w u w1 E) eq_refl)
      as (pre & ev & T & Rv).
    exists pre, ev. auto.
  - discriminate.
  - inversion Hb; subst.
    destruct (wp_elim (try_body_fails key w) E C)
      as (pre & ev & e' & T & Rv & Ce).
    exists pre, ev. split; [exact T | eauto].
  - destruct (IH b Hb) as (pre & ev & T & V).
    destruct (wp_elim (try_body_counts tr key w) E) as (evs1 & T1 & _).
    exists (evs1 ++ pre), ev. split; [|exact V].
    rewrite T, T1, <- !app_assoc. reflexivity.
Qed.

(** [_communicate] returns [True] exactly when the last call it made to the
    transport returned, and [False] exactly when that call raised a
    [BleakError] or a timeout. *)
Theorem result_follows_last_call key retry w b :
  fst (_communicate tr key retry w) = Ret b ->
  exists pre ev,
    trace (snd (_communicate tr key retry w)) =
      trace w ++ pre ++ [ev; EvRelease] /\
    if b then returned ev = true
    else exists e, raised ev = Some e /\ caught e = true.
Proof.
  apply (comm_run_verdict (_communicate_run tr key retry w)).
Qed.

(** ** What the entity shows *)

Lemma comm_run_available key retry w r w' :
  comm_run tr key retry w r w' ->
  forall b, r = Ret b -> available (self w') = b.
Proof.
  induction 1; intros b0 Hb; try discriminate; auto;
    inversion Hb; reflexivity.
Qed.

(** After a poll of the entity ([async_update]) that returns: the entity
    keeps its identifier; if it shows as available, the poll ended with a
    read of the stored handle and [is_on] tells whether the payload was the
    on marker of the polarity; if it shows as unavailable, [is_on] is what it
    was before the poll. *)
Theorem entity_after_update name w :
  fst (async_update tr w) = Ret tt ->
  let w' := snd (async_update tr w) in
  Entity.unique_id (entity_of name w') = Entity.unique_id (entity_of name w) /\
  if Entity.available (entity_of name w') then
    exists pre c p,
      trace w' = trace w ++ pre ++
        [EvAcquire; EvRead c (_handle (self w')) (Ret p); EvRelease] /\
      (Entity.is_on (entity_of name w') = true <->
       p = if _flip_on_off (self w) then OFF_KEY else ON_KEY)
  else
    Entity.is_on (entity_of name w') = Entity.is_on (entity_of name w).
Proof.
  unfold async_update, update, bind, ret, entity_of, Entity.unique_id,
    Entity.available, Entity.is_on.
  cbn [Entity._mac Entity._device].
  pose proof (_communicate_run tr None true w) as R.
  pose proof (run_op_fixed (OpCommunicate None true) w) as [Hm _].
  cbn [run_op] in Hm.
  destruct (_communicate tr None true w) as [[b|e] w1] eqn:E;
    cbn [fst snd] in *; intros Hr; [|discriminate].
  split; [rewrite Hm; reflexivity|].
  rewrite (comm_run_available R eq_refl).
  destruct b.
  - destruct (comm_run_query R eq_refl eq_refl) as (pre & c & p & T & S).
    exists pre, c, p. split; [exact T|].
    rewrite S. apply bytes_eqb_eq.
  - exact (comm_run_failure R eq_refl).
Qed.

(** After [async_turn_on] or [async_turn_off] returns, [is_on] is what it
    was before, whether the write was answered or not; and if the entity
    shows as available, the call ended with the write of the key of the
    polarity to the stored handle, answered. *)
Theorem entity_after_turn_on_off name w :
  let flip := _flip_on_off (self w) in
  (fst (async_turn_on tr w) = Ret tt ->
   let w' := snd (async_turn_on tr w) in
   Entity.is_on (entity_of name w') = Entity.is_on (entity_of name w) /\
   (Entity.available (entity_of name w') = true ->
    exists evs, trace w' = trace w ++ evs /\
      ends_with_write (if flip then OFF_KEY else ON_KEY) w' evs)) /\
  (fst (async_turn_off tr w) = Ret tt ->
   let w' := snd (async_turn_off tr w) in
   Entity.is_on (entity_of name w') = Entity.is_on (entity_of name w) /\
   (Entity.available (entity_of name w') = true ->
    exists evs, trace w' = trace w ++ evs /\
      ends_with_write (if flip then ON_KEY else OFF_KEY) w' evs)).
Proof.
  assert (H : forall (m : M bool) k,
    m w = _communicate tr (Some k) true w ->
    truthy (Some k) = true ->
    fst (bind m (fun _ => ret tt) w) = Ret tt ->
    let w' := snd (bind m (fun _ => ret tt) w) in
    state (self w') = state (self w) /\
    (available (self w') = true ->
     exists evs, trace w' = trace w ++ evs /\ ends_with_write k w' evs)).
  { intros m k Hm Hk. unfold bind, ret. rewrite Hm.
    pose proof (_communicate_run tr (Some k) true w) as R.
    pose proof (_communicate_write_state tr (Some k) true w Hk) as S.
    destruct (_communicate tr (Some k) true w) as [[b|e] w1] eqn:E;
      cbn [fst snd] in *; intros Hr; [|discriminate].
    split; [exact S|]. intros Ha.
    rewrite (comm_run_available R eq_refl) in Ha. subst b.
    destruct (comm_run_writes R Hk) as (evs & T & _ & W).
    exists evs. split; [exact T | exact (W eq_refl)]. }
  unfold async_turn_on, async_turn_off, entity_of,
    Entity.available, Entity.is_on.
  cbn [Entity._device]. cbv zeta.
  split; apply H; unfold turn_on, turn_off;
    destruct (_flip_on_off (self w)); reflexivity.
Qed.

End Extras.

(** ** The identifier *)

Lemma replace_colon_app a b :
  Entity.replace ":" "" (a ++ b) =
  (Entity.replace ":" "" a ++ Entity.replace ":" "" b)%string.
Proof.
  induction a as [|c a IH]; cbn [Entity.replace append].
  - reflexivity.
  - destruct (Ascii.eqb c ":"); cbn [append]; rewrite IH; reflexivity.
Qed.

Lemma replace_colon_length s :
  (String.length (Entity.replace ":" "" s) <= String.length s)%nat.
Proof.
  induction s as [|c s IH]; cbn [Entity.replace String.length].
  - lia.
  - destruct (Ascii.eqb c ":"); cbn [append String.length]; lia.
Qed.

Lemma replace_colon_free s :
  ~ In ":"%char (list_ascii_of_string s) -> Entity.replace ":" "" s = s.
Proof.
  induction s as [|c s IH]; cbn [Entity.replace list_ascii_of_string In];
    intros Hn; [reflexivity|].
  destruct (Ascii.eqb_spec c ":") as [->|Hc].
  - exfalso. apply Hn. left. reflexivity.
  - rewrite IH; [reflexivity|]. intros Hin. apply Hn. right. exact Hin.
Qed.

(** [unique_id] on addresses: an address without a colon is its own
    identifier, so taking the identifier twice changes nothing; the
    identifier is never longer than the address; and it is taken piece by
    piece, so two addresses that differ only in where the colons stand get
    the same identifier. *)
Theorem unique_id_of_addresses name dev a b :
  let id mac := Entity.unique_id
    {| Entity._mac := mac; Entity._name := name; Entity._device := dev |} in
  id (id a) = id a /\
  (String.length (id a) <= String.length a)%nat /\
  id (a ++ b)%string = (id a ++ id b)%string /\
  id (a ++ ":" ++ b)%string = id (a ++ b)%string.
Proof.
  cbv zeta. unfold Entity.unique_id. cbn [Entity._mac].
  split; [|split; [apply replace_colon_length|split]].
  - apply replace_colon_free. rewrite replace_colon_filter.
    intros Hin. apply filter_In in Hin as [_ Hin]. discriminate.
  - apply replace_colon_app.
  - rewrite !replace_colon_app. reflexivity.
Qed.

(** ** Instances of the further properties *)

Lemma escaping_exception_is_the_transports_witness :
  fst (_communicate (down OtherError) None true (new0 false)) = Exc OtherError /\
  caught OtherError = false /\
  exists pre ev,
    trace (snd (_communicate (down OtherError) None true (new0 false))) =
      trace (new0 false) ++ pre ++ [ev; EvRelease] /\
    raised ev = Some OtherError.
Proof.
  assert (H : fst (_communicate (down OtherError) None true (new0 false))
              = Exc OtherError) by (vm_compute; reflexivity).
  split; [exact H|].
  exact (@escaping_exception_is_the_transports (down OtherError) None true
           (new0 false) OtherError H).
Defined.

Lemma escaping_exception_keeps_flags_witness :
  fst (_communicate (down OtherError) None true synced0) = Exc OtherError /\
  available (self (snd (_communicate (down OtherError) None true synced0))) =
    available (self synced0) /\
  state (self (snd (_communicate (down OtherError) None true synced0))) =
    state (self synced0).
Proof.
  assert (H : fst (_communicate (down OtherError) None true synced0)
              = Exc OtherError) by (vm_compute; reflexivity).
  split; [exact H|].
  exact (@escaping_exception_keeps_flags (down OtherError) None true
           synced0 OtherError H).
Defined.

Lemma polite_transport_never_raises_witness :
  polite (down TimeoutError) /\
  (exists b, fst (_connect (down TimeoutError) synced0) = Ret b) /\
  (forall key retry,
     exists b, fst (_communicate (down TimeoutError) key retry synced0)
               = Ret b) /\
  fst (async_update (down TimeoutError) synced0) = Ret tt /\
  fst (async_turn_on (down TimeoutError) synced0) = Ret tt /\
  fst (async_turn_off (down TimeoutError) synced0) = Ret tt.
Proof.
  assert (H : polite (down TimeoutError)).
  { unfold polite, down. simpl.
    repeat split; intros; match goal with
                          | E : Exc _ = Exc _ |- _ => inversion E
                          end; reflexivity. }
  split; [exact H|].
  exact (@polite_transport_never_raises (down TimeoutError) synced0 H).
Defined.

Lemma disconnect_without_client_witness :
  _device (self (new0 false)) = None /\
  fst (_disconnect steady (new0 false)) = Exc AttributeError /\
  trace (snd (_disconnect steady (new0 false))) =
    trace (new0 false) ++ [EvAcquire; EvRelease] /\
  self (snd (_disconnect steady (new0 false))) = self (new0 false).
Proof.
  split; [reflexivity|].
  exact (@disconnect_without_client steady (new0 false) eq_refl).
Defined.

Lemma known_handle_is_the_only_target_witness :
  _handle (self synced0) = Some 47 /\
  exists evs,
    trace (run_ops plain [OpTurnOn; OpDisconnect; OpConnect; OpUpdate]
             synced0) = trace synced0 ++ evs /\
    Forall (on_handle 47) evs.
Proof.
  assert (H : _handle (self synced0) = Some 47) by (vm_compute; reflexivity).
  split; [exact H|].
  exact (@known_handle_is_the_only_target plain
           [OpTurnOn; OpDisconnect; OpConnect; OpUpdate] synced0 47 H).
Defined.

Lemma result_follows_last_call_witness :
  fst (_communicate (down BleakError) (Some ON_KEY) true synced0)
    = Ret false /\
  exists pre ev,
    trace (snd (_communicate (down BleakError) (Some ON_KEY) true synced0)) =
      trace synced0 ++ pre ++ [ev; EvRelease] /\
    exists e, raised ev = Some e /\ caught e = true.
Proof.
  assert (H : fst (_communicate (down BleakError) (Some ON_KEY) true synced0)
              = Ret false) by (vm_compute; reflexivity).
  split; [exact H|].
  exact (@result_follows_last_call (down BleakError) (Some ON_KEY) true
           synced0 false H).
Defined.

Lemma entity_after_update_witness :
  fst (async_update steady (new0 false)) = Ret tt /\
  Entity.unique_id
    (entity_of "Switchmate" (snd (async_update steady (new0 false)))) =
  Entity.unique_id (entity_of "Switchmate" (new0 false)) /\
  if Entity.available
       (entity_of "Switchmate" (snd (async_update steady (new0 false))))
  then
    exists pre c p,
      trace (snd (async_update steady (new0 false))) =
        trace (new0 false) ++ pre ++
        [EvAcquire;
         EvRead c
           (_handle (self (snd (async_update steady (new0 false)))))
           (Ret p);
         EvRelease] /\
      (Entity.is_on
         (entity_of "Switchmate" (snd (async_update steady (new0 false))))
       = true <->
       p = if _flip_on_off (self (new0 false)) then OFF_KEY else ON_KEY)
  else
    Entity.is_on
      (entity_of "Switchmate" (snd (async_update steady (new0 false)))) =
    Entity.is_on (entity_of "Switchmate" (new0 false)).
Proof.
  assert (H : fst (async_update steady (new0 false)) = Ret tt)
    by (vm_compute; reflexivity).
  split; [exact H|].
  exact (@entity_after_update steady "Switchmate" (new0 false) H).
Defined.

(** * The key that is written *)



Section Polarity.

Variable tr : Transport.






End Polarity.

